(** * MacMahonesque prime detectors: partition statistics, detectors, driver

    A shallow embedding of [verify_binomial_detector.py] and
    [verify_quartic_detector.py].  Python integers are [Z]; Python lists
    indexed by position are [list Z] with stdpp's lookup and insert; Python
    dictionaries are [gmap].  Exceptions are an explicit [outcome].  The
    recursion [rec] is cut by a fuel argument; [lru_cache] only stores the
    results of a pure function and is therefore not represented. *)

From stdpp Require Import gmap strings list fin_maps sorting.

Open Scope Z_scope.

(** ** Outcomes of a Python computation *)

Inductive outcome (A : Type) : Type :=
  | Done (a : A)          (* normal return *)
  | ZeroDivisionError     (* [x // 0] *)
  | KeyError              (* [d[k]] with [k] absent *)
  | OutOfFuel.            (* the model's recursion budget is exhausted *)
Arguments Done {A} a.
Arguments ZeroDivisionError {A}.
Arguments KeyError {A}.
Arguments OutOfFuel {A}.

Global Instance outcome_bind : MBind outcome := λ A B f x,
  match x with
  | Done a => f a
  | ZeroDivisionError => ZeroDivisionError
  | KeyError => KeyError
  | OutOfFuel => OutOfFuel
  end.

(** Python's [range(a, b)]. *)
Definition range (a b : Z) : list Z := seqZ a (b - a).

(** [d[k]] on a dictionary. *)
Definition item {K : Type} `{Countable K} {A : Type} (d : gmap K A) (k : K) : outcome A :=
  match d !! k with
  | Some v => Done v
  | None => KeyError
  end.

(** [d.get(k, 0)]. *)
Definition get (d : gmap Z Z) (k : Z) : Z := default 0 (d !! k).

(** ** The Partition-Statistics Engine

    Both scripts contain the same recursion; they differ in the number [K]
    of tracked distinct part sizes (3 and 4) and in the way the multiplicity
    [m] scales a child entry ([scale m c]). *)

Module Engine.
Section Engine.
Variable K : Z.
Variable scale : Z → Z → Z.

(** [if child[k]: V[k] += scale m child[k]].  Every vector has [K + 1]
    entries (lemma [rec_length]), so the indices 1..K are always in range
    and Python's [IndexError] cannot occur. *)
Definition add_entry (m : Z) (child V : list Z) (k : Z) : list Z :=
  if decide (child !!! Z.to_nat k ≠ 0)
  then <[Z.to_nat k := V !!! Z.to_nat k + scale m (child !!! Z.to_nat k)]> V
  else V.

(** [for k in range(1, K+1): ...] *)
Definition loop_k (m : Z) (child V : list Z) : list Z :=
  foldl (add_entry m child) V (range 1 (K + 1)).

(** [for m in range(1, max_m + 1): ...], over the list [ms] of the
    multiplicities still to visit. *)
Fixpoint loop_m (call : Z → Z → Z → outcome (list Z))
    (remaining i distinct_used : Z) (ms : list Z) (V : list Z) : outcome (list Z) :=
  match ms with
  | [] => Done V
  | m :: ms' =>
      let new_rem := remaining - m * i in
      child ← call new_rem (i + 1) (distinct_used + 1);
      loop_m call remaining i distinct_used ms' (loop_k m child V)
  end.

(** [for i in range(min_part, remaining + 1): ...], over the list [is_] of
    the part values still to visit; the first test is the [break]. *)
Fixpoint loop_i (call : Z → Z → Z → outcome (list Z))
    (remaining distinct_used : Z) (is_ : list Z) (V : list Z) : outcome (list Z) :=
  match is_ with
  | [] => Done V
  | i :: is' =>
      if decide (distinct_used + 1 > K) then Done V
      else if decide (i = 0) then ZeroDivisionError
      else
        let max_m := remaining `div` i in
        V' ← loop_m call remaining i distinct_used (range 1 (max_m + 1)) V;
        loop_i call remaining distinct_used is' V'
  end.

(** The body of [rec], with its recursive calls going through [call]. *)
Definition rec_body (call : Z → Z → Z → outcome (list Z))
    (remaining min_part distinct_used : Z) : outcome (list Z) :=
  let V := replicate (Z.to_nat (K + 1)) 0 in
  if decide (remaining = 0) then
    Done (if decide (1 ≤ distinct_used ≤ K)
          then <[Z.to_nat distinct_used := 1]> V
          else V)
  else
    loop_i call remaining distinct_used (range min_part (remaining + 1)) V.

Fixpoint rec (fuel : nat) (remaining min_part distinct_used : Z) : outcome (list Z) :=
  match fuel with
  | O => OutOfFuel
  | S fuel' => rec_body (rec fuel') remaining min_part distinct_used
  end.

(** [{k: V[k] for k in range(1, K+1)}] *)
Definition row_of (V : list Z) : gmap Z Z :=
  list_to_map ((λ k, (k, V !!! Z.to_nat k)) <$> range 1 (K + 1)).

(** [for n in range(0, n_max + 1): V = rec(n, 1, 0); Ms[n] = {...}] *)
Fixpoint fill (fuel : nat) (ns : list Z) (Ms : gmap Z (gmap Z Z))
    : outcome (gmap Z (gmap Z Z)) :=
  match ns with
  | [] => Done Ms
  | n :: ns' =>
      V ← rec fuel n 1 0;
      fill fuel ns' (<[n := row_of V]> Ms)
  end.

Definition compute_M_up_to (fuel : nat) (n_max : Z) : outcome (gmap Z (gmap Z Z)) :=
  fill fuel (range 0 (n_max + 1)) ∅.
End Engine.
End Engine.

(** ** verify_binomial_detector.py *)

Module Binomial.
(** [mult = m if m > 1 else 1; ... mult * child[k]] *)
Definition scale (m c : Z) : Z := (if decide (m > 1) then m else 1) * c.

Definition rec : nat → Z → Z → Z → outcome (list Z) := Engine.rec 3 scale.

Definition compute_M_up_to_3 : nat → Z → outcome (gmap Z (gmap Z Z)) :=
  Engine.compute_M_up_to 3 scale.

Definition binomial_cubic_detector (n : Z) (Ms_for_n : gmap Z Z) : Z :=
  if decide (n < 3) then 0
  else
    let m1 := get Ms_for_n 1 in
    let m2 := get Ms_for_n 2 in
    let m3 := get Ms_for_n 3 in
    let binom_part := (n - 1) * (n - 2) in
    let val := binom_part * (m1 + m2) - 5 * (n - 1) * m2 - 80 * m3 in
    val.

(** One printed line of the table. *)
Record line := Line { line_n : Z; line_prime : bool; line_val : Z; line_passed : bool }.

(** [passed = False]
    [if is_prime and val == 0: passed = True]
    [if not is_prime and val != 0: passed = True] *)
Definition passed (is_prime : bool) (val : Z) : bool :=
  let passed := false in
  let passed := if is_prime && bool_decide (val = 0) then true else passed in
  let passed := if negb is_prime && bool_decide (val ≠ 0) then true else passed in
  passed.

(** One iteration of the main loop: the state is the printed lines and the
    [failures] list. *)
Definition step (isprime : Z → bool) (Ms : gmap Z (gmap Z Z))
    (st : list line * list Z) (n : Z) : outcome (list line * list Z) :=
  Ms_n ← item Ms n;
  let val := binomial_cubic_detector n Ms_n in
  let is_prime := isprime n in
  let passed := passed is_prime val in
  let failures := if negb passed then st.2 ++ [n] else st.2 in
  Done (st.1 ++ [Line n is_prime val passed], failures).

Fixpoint loop (isprime : Z → bool) (Ms : gmap Z (gmap Z Z))
    (ns : list Z) (st : list line * list Z) : outcome (list line * list Z) :=
  match ns with
  | [] => Done st
  | n :: ns' => st' ← step isprime Ms st n; loop isprime Ms ns' st'
  end.

(** The script's top level, with its constant [N_MAX] as a parameter. *)
Definition main (isprime : Z → bool) (fuel : nat) (N_MAX : Z)
    : outcome (list line * list Z) :=
  Ms ← compute_M_up_to_3 fuel N_MAX;
  loop isprime Ms (range 2 (N_MAX + 1)) ([], []).

Definition N_MAX : Z := 1000.

(** The summary line printed after the loop:
    [if len(failures) == 0: print("VERIFIED: ... 2 to {N_MAX}")]
    [else: print("FAILED on {len(failures)} numbers: {failures}")] *)
Inductive summary :=
  | Verified (upto : Z)
  | Failed (count : nat) (numbers : list Z).

Definition summarize (failures : list Z) (N_MAX : Z) : summary :=
  if decide (length failures = 0%nat) then Verified N_MAX
  else Failed (length failures) failures.

(** The whole script: the table, the loop, the summary. *)
Definition script (isprime : Z → bool) (fuel : nat) (N_MAX : Z)
    : outcome (list line * summary) :=
  st ← main isprime fuel N_MAX;
  Done (st.1, summarize st.2 N_MAX).
End Binomial.

(** ** verify_quartic_detector.py *)

Module Quartic.
(** [if m != 1: ... m * child[k] else: ... child[k]] *)
Definition scale (m c : Z) : Z := if decide (m ≠ 1) then m * c else c.

Definition rec : nat → Z → Z → Z → outcome (list Z) := Engine.rec 4 scale.

Definition compute_M_up_to_4 : nat → Z → outcome (gmap Z (gmap Z Z)) :=
  Engine.compute_M_up_to 4 scale.

Definition COEFFS : gmap string Z :=
  list_to_map
    [ ("M1_n3"%string, -4305); ("M1_n2"%string, 12915); ("M1_n1"%string, -8610);
      ("M2_n3"%string, -2296); ("M2_n2"%string, 18368);
      ("M3_n3"%string, -3200); ("M3_n2"%string, 48640);
      ("M4_n1"%string, 967680) ].

Definition quartic_L4 (n : Z) (Ms_for_n : gmap Z Z) : outcome Z :=
  let m1 := get Ms_for_n 1 in
  let m2 := get Ms_for_n 2 in
  let m3 := get Ms_for_n 3 in
  let m4 := get Ms_for_n 4 in
  c13 ← item COEFFS "M1_n3"%string;
  c12 ← item COEFFS "M1_n2"%string;
  c11 ← item COEFFS "M1_n1"%string;
  let term1 := (c13 * n ^ 3 + c12 * n ^ 2 + c11 * n) * m1 in
  c23 ← item COEFFS "M2_n3"%string;
  c22 ← item COEFFS "M2_n2"%string;
  let term2 := (c23 * n ^ 3 + c22 * n ^ 2) * m2 in
  c33 ← item COEFFS "M3_n3"%string;
  c32 ← item COEFFS "M3_n2"%string;
  let term3 := (c33 * n ^ 3 + c32 * n ^ 2) * m3 in
  c41 ← item COEFFS "M4_n1"%string;
  let term4 := (c41 * n) * m4 in
  Done (term1 + term2 + term3 + term4).

Record line := Line { line_n : Z; line_prime : bool; line_val : Z; line_ok : bool }.

(** [ok = (is_prime and val == 0) or ((not is_prime) and val != 0)] *)
Definition ok (is_prime : bool) (val : Z) : bool :=
  (is_prime && bool_decide (val = 0)) || (negb is_prime && bool_decide (val ≠ 0)).

(** One iteration of the loop of [verify_range]. *)
Definition step (isprime : Z → bool) (verbose : bool) (Ms : gmap Z (gmap Z Z))
    (st : list line * list (Z * bool * Z)) (n : Z)
    : outcome (list line * list (Z * bool * Z)) :=
  Ms_n ← item Ms n;
  val ← quartic_L4 n Ms_n;
  let is_prime := isprime n in
  let ok := ok is_prime val in
  let out := if verbose then st.1 ++ [Line n is_prime val ok] else st.1 in
  let failures := if negb ok then st.2 ++ [(n, is_prime, val)] else st.2 in
  Done (out, failures).

Fixpoint loop (isprime : Z → bool) (verbose : bool) (Ms : gmap Z (gmap Z Z))
    (ns : list Z) (st : list line * list (Z * bool * Z))
    : outcome (list line * list (Z * bool * Z)) :=
  match ns with
  | [] => Done st
  | n :: ns' => st' ← step isprime verbose Ms st n; loop isprime verbose Ms ns' st'
  end.

(** [verify_range(N_max, verbose)]: the printed lines and the returned
    [failures]. *)
Definition verify_range (isprime : Z → bool) (fuel : nat) (N_max : Z) (verbose : bool)
    : outcome (list line * list (Z * bool * Z)) :=
  Ms ← compute_M_up_to_4 fuel N_max;
  loop isprime verbose Ms (range 2 (N_max + 1)) ([], []).

(** What the main entry point prints after the table:
    [if not failures: print("No counterexamples found in 2 <= n <= {N_MAX}.")]
    [else: print("Counterexamples found:"); for n, is_prime, val in failures: ...] *)
Inductive summary :=
  | NoCounterexamples (upto : Z)
  | CounterexamplesFound (rows : list (Z * bool * Z)).

Definition summarize (failures : list (Z * bool * Z)) (N_MAX : Z) : summary :=
  match failures with
  | [] => NoCounterexamples N_MAX
  | _ :: _ => CounterexamplesFound failures
  end.

(** The body of [if __name__ == "__main__":], with its constant [N_MAX] as
    a parameter: [failures = verify_range(N_MAX, verbose=True)], then the
    summary. *)
Definition main_entry (isprime : Z → bool) (fuel : nat) (N_MAX : Z)
    : outcome (list line * summary) :=
  st ← verify_range isprime fuel N_MAX true;
  Done (st.1, summarize st.2 N_MAX).

Definition N_MAX : Z := 1000.
End Quartic.

(** ** Reference definitions, following the specification's glossary

    A partition of [n] is a way of writing [n] as a sum of positive integers,
    order irrelevant: it is represented by the nondecreasing list of its
    parts. *)

Module Reference.
Definition sumZ (l : list Z) : Z := foldr Z.add 0 l.
Definition prodZ (l : list Z) : Z := foldr Z.mul 1 l.

(** Nondecreasing lists of parts, each at least [lo], with sum [n]. *)
Definition is_partition_ge (lo n : nat) (l : list nat) : Prop :=
  StronglySorted le l ∧ Forall (λ x, lo ≤ x)%nat l ∧ sum_list l = n.

Definition is_partition (n : nat) (l : list nat) : Prop := is_partition_ge 1 n l.

(** All of them, smallest part first; [fuel] bounds the number of parts. *)
Fixpoint parts_ge (fuel lo n : nat) : list (list nat) :=
  match n with
  | O => [[]]
  | S _ =>
      match fuel with
      | O => []
      | S fuel' => a ← seq lo (S n - lo); cons a <$> parts_ge fuel' a (n - a)
      end
  end.

Definition partitions (n : nat) : list (list nat) := parts_ge n 1 n.

(** The number of partitions of [n]. *)
Definition p (n : nat) : nat := length (partitions n).

(** Number of distinct part sizes, multiplicity of a part, and the product
    of the multiplicities of the parts. *)
Definition distinct_sizes (l : list nat) : nat := length (remove_dups l).

Definition multiplicity (x : nat) (l : list nat) : nat := length (filter (x =.) l).

Definition weight (l : list nat) : Z :=
  prodZ ((λ x, Z.of_nat (multiplicity x l)) <$> remove_dups l).

(** [M k n]: the sum, over the partitions of [n] with exactly [k] distinct
    part sizes, of the product of the multiplicities. *)
Definition M (k n : nat) : Z :=
  sumZ (weight <$> filter (λ l, distinct_sizes l = k) (partitions n)).

(** The statistics vector of a recursion state, as the data model describes
    it: the completions of the state [(rem, lo, d)] are the partitions of
    [rem] into parts at least [lo]; entry [k] sums the product of the
    multiplicities over the completions that reach exactly [k] distinct part
    sizes in total, [d] of them chosen before.  Entry 0 of the vector is
    never written and stays 0. *)
Definition completions (d lo rem k : nat) : Z :=
  sumZ ((λ l, if decide (d + distinct_sizes l = k)%nat then weight l else 0)
          <$> parts_ge rem lo rem).

Definition stat_vector (K d lo rem : nat) : list Z :=
  (λ k, if decide (k = 0%nat) then 0 else completions d lo rem k) <$> seq 0 (S K).

(** The two detector formulas, evaluated on the reference statistics. *)
Definition L3 (n : Z) : Z :=
  (n - 1) * (n - 2) * (M 1 (Z.to_nat n) + M 2 (Z.to_nat n))
  - 5 * (n - 1) * M 2 (Z.to_nat n)
  - 80 * M 3 (Z.to_nat n).

Definition L4 (n : Z) : Z :=
  (-4305 * n ^ 3 + 12915 * n ^ 2 - 8610 * n) * M 1 (Z.to_nat n)
  + (-2296 * n ^ 3 + 18368 * n ^ 2) * M 2 (Z.to_nat n)
  + (-3200 * n ^ 3 + 48640 * n ^ 2) * M 3 (Z.to_nat n)
  + 967680 * n * M 4 (Z.to_nat n).

(** Trial division, a primality oracle for concrete runs. *)
Definition trial_prime (n : Z) : bool :=
  bool_decide (2 ≤ n) && forallb (λ d, negb (n `mod` d =? 0)) (range 2 n).
End Reference.

(** * The reference enumeration of partitions is sound and complete *)

Section reference_facts.
Import Reference.

Lemma sumZ_app l1 l2 : sumZ (l1 ++ l2) = sumZ l1 + sumZ l2.
Proof. induction l1 as [|x l1 IH]; simpl; [done|]. rewrite IH. lia. Qed.

Lemma sumZ_perm l1 l2 : l1 ≡ₚ l2 → sumZ l1 = sumZ l2.
Proof. induction 1; simpl; lia. Qed.

Lemma parts_ge_elem fuel : ∀ lo n l,
  (1 ≤ lo)%nat → (n ≤ fuel)%nat →
  l ∈ parts_ge fuel lo n ↔ is_partition_ge lo n l.
Proof.
  induction fuel as [|fuel IH]; intros lo n l Hlo Hn.
  - assert (n = 0%nat) as -> by lia. simpl. rewrite list_elem_of_singleton.
    split.
    + intros ->. repeat split; constructor.
    + intros (_ & Hall & Hsum). destruct l as [|a l]; [done|].
      apply Forall_cons in Hall as [Ha _]. simpl in Hsum. lia.
  - destruct n as [|n'].
    { simpl. rewrite list_elem_of_singleton. split.
      + intros ->. repeat split; constructor.
      + intros (_ & Hall & Hsum). destruct l as [|a l]; [done|].
        apply Forall_cons in Hall as [Ha _]. simpl in Hsum. lia. }
    set (n := S n') in *.
    change (parts_ge (S fuel) lo n)
      with (a ← seq lo (S n - lo); cons a <$> parts_ge fuel a (n - a)).
    rewrite list_elem_of_bind. split.
    + intros (a & Hl & Ha). apply elem_of_seq in Ha.
      apply list_elem_of_fmap in Hl as (l' & -> & Hl').
      apply IH in Hl' as (Hs & Hall & Hsum); [|lia..].
      repeat split.
      * constructor; [done|]. eapply Forall_impl; [exact Hall|]. simpl; lia.
      * constructor; [lia|]. eapply Forall_impl; [exact Hall|]. simpl; lia.
      * simpl. lia.
    + intros (Hs & Hall & Hsum). destruct l as [|a l']; [simpl in Hsum; lia|].
      apply StronglySorted_inv in Hs as [Hs Hle].
      apply Forall_cons in Hall as [Ha Hall]. simpl in Hsum.
      exists a. split; [|apply elem_of_seq; lia].
      apply list_elem_of_fmap. exists l'. split; [done|].
      apply IH; [lia..|]. repeat split; [done|done|lia].
Qed.

Lemma parts_ge_NoDup fuel : ∀ lo n, NoDup (parts_ge fuel lo n).
Proof.
  induction fuel as [|fuel IH]; intros lo [|n'];
    try (simpl; apply NoDup_singleton); [simpl; constructor|].
  set (n := S n').
  change (parts_ge (S fuel) lo n)
    with (a ← seq lo (S n - lo); cons a <$> parts_ge fuel a (n - a)).
  apply NoDup_bind.
  - intros a1 a2 l _ _ H1 H2.
    apply list_elem_of_fmap in H1 as (l1 & -> & _).
    apply list_elem_of_fmap in H2 as (l2 & [= -> _] & _). done.
  - intros a _. apply NoDup_fmap_2; [|apply IH]. by intros ?? [=].
  - apply NoDup_seq.
Qed.

(** The enumeration [partitions n] is exactly the set of partitions of [n]. *)
Lemma partitions_spec n l : l ∈ partitions n ↔ is_partition n l.
Proof. apply parts_ge_elem; lia. Qed.

Lemma parts_ge_fuel fuel lo n :
  (1 ≤ lo)%nat → (n ≤ fuel)%nat → parts_ge fuel lo n ≡ₚ parts_ge n lo n.
Proof.
  intros Hlo Hn. apply NoDup_Permutation; [apply parts_ge_NoDup..|].
  intros l. rewrite !parts_ge_elem by lia. done.
Qed.
End reference_facts.

(** * Grouping partitions by their smallest part *)

Section grouping.
Import Reference.

(** A leading run [replicate m i] followed by strictly larger parts
    determines both the run length and the rest. *)
Lemma run_app_inj (i : nat) : ∀ (m1 m2 : nat) (l1 l2 : list nat),
  Forall (λ x, i < x)%nat l1 → Forall (λ x, i < x)%nat l2 →
  replicate m1 i ++ l1 = replicate m2 i ++ l2 → m1 = m2 ∧ l1 = l2.
Proof.
  induction m1 as [|m1 IH]; intros [|m2] l1 l2 H1 H2 Heq; simpl in *.
  - done.
  - subst l1. apply Forall_cons in H1 as [? _]. lia.
  - subst l2. apply Forall_cons in H2 as [? _]. lia.
  - injection Heq as Heq. destruct (IH m2 l1 l2) as [-> ->]; done.
Qed.

(** A nondecreasing list whose elements are all at least [a] starts with a
    (possibly empty) run of [a]s followed by strictly larger elements. *)
Lemma sorted_split_run (a : nat) : ∀ l : list nat,
  StronglySorted le l → Forall (λ x, a ≤ x)%nat l →
  ∃ m l', l = replicate m a ++ l' ∧ Forall (λ x, a < x)%nat l'
          ∧ StronglySorted le l'.
Proof.
  induction l as [|x l IH]; intros Hs Hall.
  - exists 0%nat, []. repeat split; constructor.
  - apply StronglySorted_inv in Hs as [Hs Hx].
    apply Forall_cons in Hall as [Hax Hall].
    destruct (decide (x = a)) as [->|Hne].
    + destruct (IH Hs Hall) as (m & l' & -> & Hgt & Hs').
      exists (S m), l'. done.
    + exists 0%nat, (x :: l). repeat split.
      * constructor; [lia|]. eapply Forall_impl; [exact Hx|]. simpl; lia.
      * by constructor.
Qed.

Lemma sum_list_append (l1 l2 : list nat) :
  sum_list (l1 ++ l2) = (sum_list l1 + sum_list l2)%nat.
Proof. induction l1 as [|x l1 IH]; simpl; [done|]. rewrite IH. lia. Qed.

Lemma run_partition (lo i m r : nat) (l' : list nat) :
  (lo ≤ i)%nat →
  is_partition_ge (S i) r l' →
  is_partition_ge lo (m * i + r) (replicate m i ++ l').
Proof.
  intros Hlo (Hs & Hall & Hsum). repeat split.
  - apply StronglySorted_app_2.
    + intros x1 x2 H1%elem_of_replicate_inv H2. subst x1.
      rewrite Forall_forall in Hall. specialize (Hall _ H2). simpl in Hall. lia.
    + induction m as [|m IHm]; simpl; constructor; [done|].
      apply Forall_replicate. done.
    + done.
  - apply Forall_app. split.
    + by apply Forall_replicate.
    + eapply Forall_impl; [exact Hall|]. simpl; lia.
  - rewrite sum_list_append, sum_list_replicate. lia.
Qed.

(** The partitions of [n > 0] into parts at least [lo], grouped by the value
    [i] and multiplicity [m] of their smallest part. *)
Lemma parts_ge_group (n lo : nat) :
  (1 ≤ lo)%nat → (0 < n)%nat →
  parts_ge n lo n ≡ₚ
    i ← seq lo (S n - lo); m ← seq 1 (n `div` i);
    (replicate m i ++.) <$> parts_ge (n - m * i) (S i) (n - m * i).
Proof.
  intros Hlo Hn. apply NoDup_Permutation.
  - apply parts_ge_NoDup.
  - apply NoDup_bind; [| |apply NoDup_seq].
    + intros i1 i2 l _ _ H1 H2.
      apply list_elem_of_bind in H1 as (m1 & H1 & Hm1%elem_of_seq).
      apply list_elem_of_bind in H2 as (m2 & H2 & Hm2%elem_of_seq).
      apply list_elem_of_fmap in H1 as (l1 & -> & _).
      apply list_elem_of_fmap in H2 as (l2 & Heq & _).
      destruct m1 as [|m1]; [lia|]. destruct m2 as [|m2]; [lia|].
      simpl in Heq. by injection Heq.
    + intros i Hi%elem_of_seq. apply NoDup_bind; [| |apply NoDup_seq].
      * intros m1 m2 l _ _ H1 H2.
        apply list_elem_of_fmap in H1 as (l1 & -> & H1).
        apply list_elem_of_fmap in H2 as (l2 & Heq & H2).
        apply parts_ge_elem in H1 as (_ & H1 & _); [|lia..].
        apply parts_ge_elem in H2 as (_ & H2 & _); [|lia..].
        by destruct (run_app_inj i m1 m2 l1 l2).
      * intros m _. apply NoDup_fmap_2; [|apply parts_ge_NoDup].
        intros ??. apply app_inv_head.
  - intros l. rewrite parts_ge_elem by lia. rewrite list_elem_of_bind. split.
    + intros (Hs & Hall & Hsum).
      destruct l as [|a t]; [simpl in Hsum; lia|].
      assert (lo ≤ a)%nat as Ha by (by apply Forall_cons in Hall as [? _]).
      assert (Forall (λ x, a ≤ x)%nat (a :: t)) as Hge.
      { constructor; [done|]. by apply StronglySorted_inv in Hs as [_ ?]. }
      destruct (sorted_split_run a (a :: t) Hs Hge) as (m & l' & Heq & Hgt & Hs').
      destruct m as [|m].
      { simpl in Heq. subst l'. apply Forall_cons in Hgt as [? _]. lia. }
      assert (sum_list l' + S m * a = n)%nat as Hsum'.
      { rewrite <-Hsum, Heq, sum_list_append, sum_list_replicate. lia. }
      exists a. split; [|apply elem_of_seq; simpl in Hsum; lia].
      apply list_elem_of_bind. exists (S m). split.
      * apply list_elem_of_fmap. exists l'. split; [done|].
        apply parts_ge_elem; [lia..|]. repeat split; [done| |lia].
        eapply Forall_impl; [exact Hgt|]. simpl; lia.
      * apply elem_of_seq. split; [lia|].
        assert (S m ≤ n `div` a)%nat; [|lia].
        apply Nat.div_le_lower_bound; lia.
    + intros (i & Hl & Hi%elem_of_seq).
      apply list_elem_of_bind in Hl as (m & Hl & Hm%elem_of_seq).
      apply list_elem_of_fmap in Hl as (l' & -> & Hl').
      apply parts_ge_elem in Hl'; [|lia..].
      assert (m * i ≤ n)%nat as Hmi.
      { pose proof (Nat.Div0.mul_div_le n i). nia. }
      replace n with (m * i + (n - m * i))%nat at 1 by lia.
      apply run_partition; [lia|done].
Qed.
End grouping.

(** * Distinct sizes and weights of grouped partitions *)

Section weights.
Import Reference.

Lemma remove_dups_run (i m : nat) (l' : list nat) :
  Forall (λ x, i < x)%nat l' →
  remove_dups (replicate (S m) i ++ l') = i :: remove_dups l'.
Proof.
  intros Hgt. induction m as [|m IH].
  - simpl. destruct (decide_rel elem_of i l') as [Hin|]; [|done].
    rewrite Forall_forall in Hgt. specialize (Hgt _ Hin). simpl in Hgt. lia.
  - change (replicate (S (S m)) i ++ l') with (i :: (replicate (S m) i ++ l')).
    cbn [remove_dups].
    destruct (decide_rel elem_of i (replicate (S m) i ++ l')) as [|Hnin]; [done|].
    exfalso. apply Hnin. simpl. left.
Qed.

Lemma multiplicity_app x l1 l2 :
  multiplicity x (l1 ++ l2) = (multiplicity x l1 + multiplicity x l2)%nat.
Proof. unfold multiplicity. by rewrite filter_app, length_app. Qed.

Lemma multiplicity_replicate_eq i m : multiplicity i (replicate m i) = m.
Proof.
  unfold multiplicity. induction m as [|m IH]; [done|].
  simpl. rewrite filter_cons_True by done. simpl. by rewrite IH.
Qed.

Lemma multiplicity_notin x l : x ∉ l → multiplicity x l = 0%nat.
Proof.
  unfold multiplicity. induction l as [|y l IH]; intros Hx; [done|].
  apply not_elem_of_cons in Hx as [Hne Hx].
  rewrite filter_cons_False by done. by apply IH.
Qed.

Lemma multiplicity_pos x l : x ∈ l → (1 ≤ multiplicity x l)%nat.
Proof.
  unfold multiplicity. induction 1 as [x l|x y l _ IH].
  - rewrite filter_cons_True by done. simpl. lia.
  - rewrite filter_cons. destruct (decide (x = y)); simpl; lia.
Qed.

Lemma prodZ_ext {A} (f g : A → Z) (l : list A) :
  (∀ x, x ∈ l → f x = g x) → prodZ (f <$> l) = prodZ (g <$> l).
Proof.
  unfold prodZ. induction l as [|x l IH]; intros Hfg; [done|].
  rewrite !fmap_cons. cbn [foldr].
  rewrite Hfg by left. rewrite IH; [done|]. intros y Hy. apply Hfg. by right.
Qed.

Lemma prodZ_ge_1 (l : list Z) : Forall (λ z, 1 ≤ z) l → 1 ≤ prodZ l.
Proof. unfold prodZ. induction 1 as [|z l Hz _ IH]; simpl; [lia|nia]. Qed.

Lemma distinct_sizes_nil : distinct_sizes [] = 0%nat.
Proof. done. Qed.

Lemma weight_nil : weight [] = 1.
Proof. done. Qed.

Lemma distinct_sizes_run (i m : nat) (l' : list nat) :
  Forall (λ x, i < x)%nat l' →
  distinct_sizes (replicate (S m) i ++ l') = S (distinct_sizes l').
Proof. intros Hgt. unfold distinct_sizes. by rewrite remove_dups_run. Qed.

Lemma weight_run (i m : nat) (l' : list nat) :
  Forall (λ x, i < x)%nat l' →
  weight (replicate (S m) i ++ l') = Z.of_nat (S m) * weight l'.
Proof.
  intros Hgt. unfold weight. rewrite remove_dups_run by done.
  assert (i ∉ l') as Hnotin.
  { intros Hin. rewrite Forall_forall in Hgt. specialize (Hgt _ Hin). simpl in Hgt. lia. }
  rewrite fmap_cons. cbn [prodZ foldr]. f_equal.
  - rewrite multiplicity_app, multiplicity_replicate_eq, multiplicity_notin by done.
    f_equal. lia.
  - apply prodZ_ext. intros x Hx. rewrite elem_of_remove_dups in Hx.
    rewrite multiplicity_app. rewrite (multiplicity_notin x (replicate _ _)); [done|].
    intros Hr%elem_of_replicate_inv. by subst x.
Qed.

Lemma weight_ge_1 (l : list nat) : 1 ≤ weight l.
Proof.
  unfold weight. apply prodZ_ge_1. apply Forall_fmap, Forall_forall.
  intros x Hx. rewrite elem_of_remove_dups in Hx. simpl.
  pose proof (multiplicity_pos x l Hx). lia.
Qed.

Lemma distinct_sizes_pos (l : list nat) : l ≠ [] → (1 ≤ distinct_sizes l)%nat.
Proof.
  intros Hl. destruct l as [|x l]; [done|]. unfold distinct_sizes.
  assert (x ∈ remove_dups (x :: l)) as Hx by (apply elem_of_remove_dups; left).
  destruct (remove_dups (x :: l)); [by apply elem_of_nil in Hx|simpl; lia].
Qed.
End weights.

(** * The recurrence satisfied by the reference statistics *)

Section recurrence.
Import Reference.

Lemma sumZ_bind {A B} (f : B → Z) (g : A → list B) (l : list A) :
  sumZ (f <$> (l ≫= g)) = sumZ ((λ x, sumZ (f <$> g x)) <$> l).
Proof.
  induction l as [|x l IH]; [done|].
  rewrite bind_cons, fmap_app, sumZ_app, fmap_cons, IH. done.
Qed.

Lemma sumZ_ext {A} (f g : A → Z) (l : list A) :
  (∀ x, x ∈ l → f x = g x) → sumZ (f <$> l) = sumZ (g <$> l).
Proof.
  unfold sumZ. induction l as [|x l IH]; intros Hfg; [done|].
  rewrite !fmap_cons. cbn [foldr].
  rewrite Hfg by left. rewrite IH; [done|]. intros y Hy. apply Hfg. by right.
Qed.

Lemma sumZ_scale {A} (c : Z) (f : A → Z) (l : list A) :
  sumZ ((λ x, c * f x) <$> l) = c * sumZ (f <$> l).
Proof.
  unfold sumZ. induction l as [|x l IH]; [simpl; lia|].
  rewrite !fmap_cons. cbn [foldr]. rewrite IH. lia.
Qed.

Lemma sumZ_zero {A} (f : A → Z) (l : list A) :
  (∀ x, x ∈ l → f x = 0) → sumZ (f <$> l) = 0.
Proof.
  unfold sumZ. induction l as [|x l IH]; intros Hf; [done|].
  rewrite fmap_cons. cbn [foldr]. rewrite Hf by left.
  rewrite IH; [done|]. intros y Hy. apply Hf. by right.
Qed.

Lemma sumZ_nonneg (l : list Z) : Forall (λ z, 0 ≤ z) l → 0 ≤ sumZ l.
Proof. unfold sumZ. induction 1; simpl; lia. Qed.

Lemma sumZ_filter {A} (P : A → Prop) `{∀ x, Decision (P x)} (f : A → Z) (l : list A) :
  sumZ (f <$> filter P l) = sumZ ((λ x, if decide (P x) then f x else 0) <$> l).
Proof.
  unfold sumZ. induction l as [|x l IH]; [done|].
  rewrite filter_cons, !fmap_cons. cbn [foldr].
  destruct (decide (P x)); rewrite ?fmap_cons; cbn [foldr]; rewrite IH; lia.
Qed.

Lemma completions_0 d lo k :
  completions d lo 0 k = if decide (d = k) then 1 else 0.
Proof.
  unfold completions. cbn [parts_ge]. rewrite list_fmap_singleton.
  rewrite distinct_sizes_nil, weight_nil, Nat.add_0_r. unfold sumZ. cbn [foldr].
  destruct (decide (d = k)); lia.
Qed.

(** The recurrence behind the double loop of [rec]. *)
Lemma completions_step d lo rem k :
  (1 ≤ lo)%nat → (0 < rem)%nat →
  completions d lo rem k =
    sumZ ((λ i, sumZ ((λ m, Z.of_nat m * completions (S d) (S i) (rem - m * i) k)
                        <$> seq 1 (rem `div` i)))
            <$> seq lo (S rem - lo)).
Proof.
  intros Hlo Hrem. unfold completions at 1.
  rewrite (sumZ_perm _ _ (fmap_Permutation _ _ _ (parts_ge_group rem lo Hlo Hrem))).
  rewrite sumZ_bind. apply sumZ_ext. intros i Hi%elem_of_seq.
  rewrite sumZ_bind. apply sumZ_ext. intros m Hm%elem_of_seq.
  rewrite <-list_fmap_compose. unfold completions.
  rewrite <-sumZ_scale. apply sumZ_ext. intros l' Hl'. simpl.
  apply parts_ge_elem in Hl' as (_ & Hall & _); [|lia..].
  destruct m as [|m]; [lia|].
  rewrite distinct_sizes_run, weight_run by done.
  repeat case_decide; lia.
Qed.

(** Once [d] sizes are chosen, a nonempty completion reaches more than [d]. *)
Lemma completions_small d lo rem k :
  (1 ≤ lo)%nat → (0 < rem)%nat → (k ≤ d)%nat → completions d lo rem k = 0.
Proof.
  intros Hlo Hrem Hk. unfold completions. apply sumZ_zero. intros l Hl.
  apply parts_ge_elem in Hl as (_ & _ & Hsum); [|lia..].
  assert (l ≠ []) as Hne by (intros ->; simpl in Hsum; lia).
  pose proof (distinct_sizes_pos l Hne).
  rewrite decide_False; [done|lia].
Qed.

Lemma completions_nonneg d lo rem k : 0 ≤ completions d lo rem k.
Proof.
  unfold completions. apply sumZ_nonneg, Forall_fmap, Forall_forall.
  intros l _. simpl. pose proof (weight_ge_1 l). case_decide; lia.
Qed.

Lemma M_completions k n : M k n = completions 0 1 n k.
Proof. unfold M, completions, partitions. by rewrite sumZ_filter. Qed.

Lemma length_stat_vector K d lo rem : length (stat_vector K d lo rem) = S K.
Proof. unfold stat_vector. by rewrite length_fmap, length_seq. Qed.

Lemma lookup_stat_vector K d lo rem k :
  (1 ≤ k ≤ K)%nat → stat_vector K d lo rem !!! k = completions d lo rem k.
Proof.
  intros Hk. unfold stat_vector. apply list_lookup_total_correct.
  rewrite list_lookup_fmap, lookup_seq_lt by lia. simpl.
  rewrite decide_False; [done|lia].
Qed.

Lemma lookup_stat_vector_0 K d lo rem : stat_vector K d lo rem !!! 0%nat = 0.
Proof. done. Qed.
End recurrence.

(** * The loops of the Engine compute the recurrence *)

Lemma range_of_nat (a b : nat) :
  range (Z.of_nat a) (Z.of_nat b) = Z.of_nat <$> seq a (b - a).
Proof.
  unfold range, seqZ.
  replace (Z.to_nat (Z.of_nat b - Z.of_nat a)) with (b - a)%nat by lia.
  apply list_eq. intros j. rewrite !list_lookup_fmap.
  destruct (decide (j < b - a)%nat).
  - rewrite !lookup_seq_lt by done. simpl. f_equal. lia.
  - rewrite !lookup_seq_ge by lia. done.
Qed.

Lemma list_eq_total (l1 l2 : list Z) :
  length l1 = length l2 →
  (∀ j, (j < length l1)%nat → l1 !!! j = l2 !!! j) → l1 = l2.
Proof.
  intros Hlen Hj. apply list_eq_same_length with (length l1); [done..|].
  intros j x y Hlt H1 H2.
  apply list_lookup_total_correct in H1, H2. specialize (Hj j Hlt). congruence.
Qed.

Section engine_facts.
Import Reference.
Variable Kn : nat.
Variable scale : Z → Z → Z.
Hypothesis Hscale : ∀ m c, 1 ≤ m → scale m c = m * c.
Local Abbreviation K := (Z.of_nat Kn).

Lemma foldl_add_entry (m : Z) (child : list Z) : 1 ≤ m →
  ∀ (ks : list nat) (V : list Z),
    NoDup ks → Forall (λ k, k < length V)%nat ks →
    length (foldl (Engine.add_entry scale m child) V (Z.of_nat <$> ks)) = length V ∧
    ∀ j, foldl (Engine.add_entry scale m child) V (Z.of_nat <$> ks) !!! j =
         if decide (j ∈ ks) then V !!! j + m * child !!! j else V !!! j.
Proof.
  intros Hm. induction ks as [|k ks IH]; intros V Hnd Hlt.
  - split; [done|]. intros j. rewrite decide_False; [done|]. apply not_elem_of_nil.
  - apply NoDup_cons in Hnd as [Hk Hnd]. apply Forall_cons in Hlt as [Hklt Hlt].
    rewrite fmap_cons. cbn [foldl].
    set (V1 := Engine.add_entry scale m child V (Z.of_nat k)).
    assert (length V1 = length V) as Hlen1.
    { unfold V1, Engine.add_entry. case_decide; [apply length_insert|done]. }
    assert (∀ j, V1 !!! j = if decide (j = k) then V !!! j + m * child !!! j else V !!! j)
      as HV1.
    { intros j. unfold V1, Engine.add_entry. rewrite Nat2Z.id.
      destruct (decide (child !!! k ≠ 0)) as [Hc|Hc].
      - destruct (decide (j = k)) as [->|Hne].
        + rewrite list_lookup_total_insert_eq by done. by rewrite Hscale.
        + by rewrite list_lookup_total_insert_ne.
      - destruct (decide (j = k)) as [->|Hne]; [|done].
        assert (child !!! k = 0) as -> by (by destruct (decide (child !!! k = 0))).
        lia. }
    destruct (IH V1 Hnd) as [Hlen HV']; [by rewrite Hlen1|].
    split; [by rewrite Hlen|]. intros j. rewrite HV', HV1.
    destruct (decide (j = k)) as [->|Hne].
    + rewrite decide_False by done. rewrite decide_True; [done|left].
    + destruct (decide (j ∈ ks)).
      * rewrite decide_True; [done|by right].
      * rewrite decide_False; [done|]. by intros [?|?]%elem_of_cons.
Qed.

Lemma loop_k_spec (m : Z) (child V : list Z) :
  1 ≤ m → length V = S Kn →
  length (Engine.loop_k K scale m child V) = S Kn ∧
  ∀ j, Engine.loop_k K scale m child V !!! j =
       if decide (1 ≤ j ≤ Kn)%nat then V !!! j + m * child !!! j else V !!! j.
Proof.
  intros Hm Hlen. unfold Engine.loop_k.
  replace (K + 1) with (Z.of_nat (S Kn)) by lia.
  pose proof (range_of_nat 1 (S Kn)) as Hr.
  change (Z.of_nat 1) with 1 in Hr. rewrite Hr. clear Hr.
  replace (S Kn - 1)%nat with Kn by lia.
  destruct (foldl_add_entry m child Hm (seq 1 Kn) V) as [Hlen' HV'].
  - apply NoDup_seq.
  - apply Forall_forall. intros k Hk%elem_of_seq. lia.
  - split; [by rewrite Hlen'|]. intros j. rewrite HV'.
    destruct (decide (1 ≤ j ≤ Kn)%nat) as [Hj|Hj].
    + rewrite decide_True; [done|apply elem_of_seq; lia].
    + rewrite decide_False; [done|]. rewrite elem_of_seq. lia.
Qed.

Lemma loop_m_spec call (rem i d : Z) (c : nat → list Z) : ∀ (ms : list nat) (V : list Z),
  (∀ m, m ∈ ms →
     (1 ≤ m)%nat ∧ call (rem - Z.of_nat m * i) (i + 1) (d + 1) = Done (c m)) →
  length V = S Kn →
  ∃ V', Engine.loop_m K scale call rem i d (Z.of_nat <$> ms) V = Done V'
        ∧ length V' = S Kn
        ∧ ∀ j, V' !!! j =
               if decide (1 ≤ j ≤ Kn)%nat
               then V !!! j + sumZ ((λ m, Z.of_nat m * c m !!! j) <$> ms)
               else V !!! j.
Proof.
  induction ms as [|m ms IH]; intros V Hcall Hlen.
  - exists V. split; [done|]. split; [done|]. intros j.
    case_decide; [|done]. simpl. lia.
  - destruct (Hcall m) as [Hm Hc]; [left|].
    rewrite fmap_cons. cbn [Engine.loop_m]. rewrite Hc. cbn [mbind outcome_bind].
    destruct (loop_k_spec (Z.of_nat m) (c m) V) as [Hlen1 HV1]; [lia|done|].
    destruct (IH (Engine.loop_k K scale (Z.of_nat m) (c m) V)) as (V' & Hrun & Hlen' & HV').
    { intros m' Hm'. apply Hcall. by right. }
    { done. }
    exists V'. split; [done|]. split; [done|]. intros j.
    rewrite HV', HV1. case_decide; [|done].
    rewrite fmap_cons. cbn [sumZ foldr]. unfold sumZ. lia.
Qed.

Lemma loop_i_break call (rem d : Z) (is_ V : list Z) :
  d + 1 > K → Engine.loop_i K scale call rem d is_ V = Done V.
Proof. intros Hd. destruct is_; simpl; [done|]. by rewrite decide_True. Qed.

Lemma loop_i_spec call (rem d : nat) (c : nat → nat → list Z) :
  Z.of_nat d + 1 ≤ K →
  ∀ (is_ : list nat) (V : list Z),
    (∀ i m, i ∈ is_ → (1 ≤ m ≤ rem `div` i)%nat →
       call (Z.of_nat rem - Z.of_nat m * Z.of_nat i) (Z.of_nat i + 1) (Z.of_nat d + 1)
       = Done (c i m)) →
    Forall (λ i, 1 ≤ i)%nat is_ →
    length V = S Kn →
    ∃ V', Engine.loop_i K scale call (Z.of_nat rem) (Z.of_nat d) (Z.of_nat <$> is_) V
          = Done V'
          ∧ length V' = S Kn
          ∧ ∀ j, V' !!! j =
                 if decide (1 ≤ j ≤ Kn)%nat
                 then V !!! j
                      + sumZ ((λ i, sumZ ((λ m, Z.of_nat m * c i m !!! j)
                                            <$> seq 1 (rem `div` i))) <$> is_)
                 else V !!! j.
Proof.
  intros Hd. induction is_ as [|i is_ IH]; intros V Hcall Hpos Hlen.
  - exists V. split; [done|]. split; [done|]. intros j.
    case_decide; [|done]. simpl. lia.
  - apply Forall_cons in Hpos as [Hi Hpos].
    rewrite fmap_cons. cbn [Engine.loop_i].
    rewrite decide_False by lia. rewrite decide_False by lia.
    rewrite <-Nat2Z.inj_div.
    replace (Z.of_nat (Nat.div rem i) + 1) with (Z.of_nat (S (Nat.div rem i))) by lia.
    pose proof (range_of_nat 1 (S (Nat.div rem i))) as Hr.
    change (Z.of_nat 1) with 1 in Hr. rewrite Hr. clear Hr.
    replace (S (Nat.div rem i) - 1)%nat with (Nat.div rem i) by lia.
    destruct (loop_m_spec call (Z.of_nat rem) (Z.of_nat i) (Z.of_nat d) (c i)
                (seq 1 (Nat.div rem i)) V) as (V1 & Hrun1 & Hlen1 & HV1).
    { intros m Hm%elem_of_seq. split; [lia|]. apply Hcall; [left|lia]. }
    { done. }
    rewrite Hrun1. cbn [mbind outcome_bind].
    destruct (IH V1) as (V' & Hrun & Hlen' & HV').
    { intros i' m Hi' Hm. apply Hcall; [by right|done]. }
    { done. }
    { done. }
    exists V'. split; [done|]. split; [done|]. intros j.
    rewrite HV', HV1. case_decide; [|done].
    rewrite fmap_cons. unfold sumZ. cbn [foldr]. lia.
Qed.

Lemma lookup_zeros (n j : nat) : (j < n)%nat → replicate n (0 : Z) !!! j = 0.
Proof. apply lookup_total_replicate_2. Qed.

Lemma lookup_stat_vector_any d lo rem j :
  (j ≤ Kn)%nat →
  stat_vector Kn d lo rem !!! j =
  if decide (1 ≤ j)%nat then completions d lo rem j else 0.
Proof.
  intros Hj. case_decide; [apply lookup_stat_vector; lia|].
  by assert (j = 0%nat) as -> by lia.
Qed.

(** [rec] returns the statistics vector of its state. *)
Lemma rec_spec : ∀ (fuel rem lo d : nat),
  (rem < fuel)%nat → (1 ≤ lo)%nat →
  Engine.rec K scale fuel (Z.of_nat rem) (Z.of_nat lo) (Z.of_nat d)
  = Done (stat_vector Kn d lo rem).
Proof.
  induction fuel as [|fuel IH]; intros rem lo d Hfuel Hlo; [lia|].
  cbn [Engine.rec]. unfold Engine.rec_body.
  replace (Z.to_nat (K + 1)) with (S Kn) by lia.
  destruct (decide (Z.of_nat rem = 0)) as [Hz|Hnz].
  - assert (rem = 0%nat) as -> by lia. f_equal.
    assert (length (if decide (1 ≤ Z.of_nat d ≤ K)
                    then <[Z.to_nat (Z.of_nat d) := 1]> (replicate (S Kn) 0)
                    else replicate (S Kn) 0) = S Kn) as Hlen.
    { case_decide; rewrite ?length_insert, length_replicate; done. }
    apply list_eq_total; [by rewrite length_stat_vector|].
    rewrite Hlen. intros j Hj.
    rewrite lookup_stat_vector_any, completions_0 by lia.
    rewrite Nat2Z.id.
    destruct (decide (1 ≤ Z.of_nat d ≤ K)) as [Hd|Hd].
    + destruct (decide (d = j)) as [->|Hne].
      * rewrite list_lookup_total_insert_eq by (rewrite length_replicate; lia).
        rewrite decide_True; [done|lia].
      * rewrite list_lookup_total_insert_ne by done. rewrite lookup_zeros by done.
        by case_decide.
    + rewrite lookup_zeros by done. case_decide; [|done].
      rewrite decide_False; [done|lia].
  - replace (Z.of_nat rem + 1) with (Z.of_nat (S rem)) by lia.
    rewrite range_of_nat.
    destruct (decide (Z.of_nat d + 1 > K)) as [Hd|Hd].
    + rewrite loop_i_break by done. f_equal. apply list_eq_total.
      * by rewrite length_stat_vector, length_replicate.
      * rewrite length_replicate. intros j Hj.
        rewrite lookup_stat_vector_any, lookup_zeros by lia.
        case_decide; [|done]. rewrite completions_small; [done|lia..].
    + destruct (loop_i_spec (Engine.rec K scale fuel) rem d
                  (λ i m, stat_vector Kn (S d) (S i) (rem - m * i))
                  ltac:(lia) (seq lo (S rem - lo)) (replicate (S Kn) 0))
        as (V' & Hrun & Hlen' & HV').
      * intros i m Hi%elem_of_seq Hm.
        assert (m * i ≤ rem)%nat as Hmi.
        { pose proof (Nat.Div0.mul_div_le rem i). nia. }
        replace (Z.of_nat rem - Z.of_nat m * Z.of_nat i)
          with (Z.of_nat (rem - m * i)) by lia.
        replace (Z.of_nat i + 1) with (Z.of_nat (S i)) by lia.
        replace (Z.of_nat d + 1) with (Z.of_nat (S d)) by lia.
        apply IH; nia.
      * apply Forall_forall. intros i Hi%elem_of_seq. lia.
      * apply length_replicate.
      * rewrite Hrun. f_equal. apply list_eq_total.
        -- by rewrite length_stat_vector.
        -- rewrite Hlen'. intros j Hj.
           rewrite HV', lookup_stat_vector_any, lookup_zeros by lia.
           destruct (decide (1 ≤ j ≤ Kn)%nat) as [Hj1|Hj1].
           ++ rewrite decide_True by lia.
              rewrite (completions_step d lo rem j) by lia.
              rewrite Z.add_0_l. apply sumZ_ext. intros i Hi%elem_of_seq.
              apply sumZ_ext. intros m Hm%elem_of_seq.
              by rewrite lookup_stat_vector.
           ++ rewrite decide_False; [done|lia].
Qed.
End engine_facts.

(** * Termination and locality of the recursion *)

Lemma elem_of_range (a b x : Z) : x ∈ range a b ↔ a ≤ x < b.
Proof. unfold range. rewrite elem_of_seqZ. lia. Qed.

Section engine_termination.
Variable K : Z.
Variable scale : Z → Z → Z.

Lemma length_add_entry m child V k :
  length (Engine.add_entry scale m child V k) = length V.
Proof. unfold Engine.add_entry. case_decide; [apply length_insert|done]. Qed.

Lemma length_loop_k m child V :
  length (Engine.loop_k K scale m child V) = length V.
Proof.
  unfold Engine.loop_k. generalize (range 1 (K + 1)). intros ks. revert V.
  induction ks as [|k ks IH]; intros V; [done|].
  cbn [foldl]. by rewrite IH, length_add_entry.
Qed.

(** The state of a recursive call, reached from a state with
    [remaining ≥ 0] and [min_part ≥ 1]. *)
Lemma child_state (rem lo i m : Z) :
  0 ≤ rem → 1 ≤ lo → i ∈ range lo (rem + 1) → m ∈ range 1 (rem `div` i + 1) →
  0 ≤ rem - m * i < rem ∧ lo < i + 1.
Proof.
  intros Hrem Hlo Hi%elem_of_range Hm%elem_of_range.
  pose proof (Z.mul_div_le rem i ltac:(lia)). nia.
Qed.

Lemma loop_m_ext call1 call2 (rem i d : Z) : ∀ (ms V : list Z),
  (∀ m, m ∈ ms →
     call1 (rem - m * i) (i + 1) (d + 1) = call2 (rem - m * i) (i + 1) (d + 1)) →
  Engine.loop_m K scale call1 rem i d ms V = Engine.loop_m K scale call2 rem i d ms V.
Proof.
  induction ms as [|m ms IH]; intros V Hcall; [done|].
  cbn [Engine.loop_m]. rewrite (Hcall m) by left.
  destruct (call2 _ _ _) as [child| | |]; try done.
  cbn [mbind outcome_bind]. apply IH. intros m' Hm'. apply Hcall. by right.
Qed.

Lemma loop_i_ext call1 call2 (rem d : Z) : ∀ (is_ V : list Z),
  (∀ i m, d + 1 ≤ K → i ∈ is_ → i ≠ 0 → m ∈ range 1 (rem `div` i + 1) →
     call1 (rem - m * i) (i + 1) (d + 1) = call2 (rem - m * i) (i + 1) (d + 1)) →
  Engine.loop_i K scale call1 rem d is_ V = Engine.loop_i K scale call2 rem d is_ V.
Proof.
  induction is_ as [|i is_ IH]; intros V Hcall; [done|].
  cbn [Engine.loop_i]. case_decide as Hd; [done|]. case_decide as Hi; [done|].
  rewrite (loop_m_ext call1 call2).
  - destruct (Engine.loop_m _ _ call2 _ _ _ _ _) as [V'| | |]; try done.
    cbn [mbind outcome_bind]. apply IH.
    intros i' m ? Hi' ? Hm. apply Hcall; [done|by right|done..].
  - intros m Hm. apply Hcall; [lia|left|done..].
Qed.

(** The body of [rec] consults [call] only at states with a strictly smaller
    [remaining], a larger [min_part] and one more distinct size, within the
    cap [K]. *)
Lemma rec_body_local call1 call2 (rem lo d : Z) :
  0 ≤ rem → 1 ≤ lo →
  (∀ r l d', 0 ≤ r < rem → lo < l → d' = d + 1 → d' ≤ K → call1 r l d' = call2 r l d') →
  Engine.rec_body K scale call1 rem lo d = Engine.rec_body K scale call2 rem lo d.
Proof.
  intros Hrem Hlo Hcall. unfold Engine.rec_body. case_decide; [done|].
  apply loop_i_ext. intros i m Hd Hi _ Hm.
  destruct (child_state rem lo i m) as [? ?]; [done..|].
  by apply Hcall.
Qed.

Lemma loop_m_done call (rem i d : Z) : ∀ (ms V : list Z),
  (∀ m, m ∈ ms → ∃ c, call (rem - m * i) (i + 1) (d + 1) = Done c) →
  ∃ V', Engine.loop_m K scale call rem i d ms V = Done V' ∧ length V' = length V.
Proof.
  induction ms as [|m ms IH]; intros V Hcall; [by exists V|].
  destruct (Hcall m) as [c Hc]; [left|].
  cbn [Engine.loop_m]. rewrite Hc. cbn [mbind outcome_bind].
  destruct (IH (Engine.loop_k K scale m c V)) as (V' & Hrun & Hlen).
  { intros m' Hm'. apply Hcall. by right. }
  exists V'. split; [done|]. by rewrite Hlen, length_loop_k.
Qed.

Lemma loop_i_done call (rem d : Z) : ∀ (is_ V : list Z),
  (∀ i, i ∈ is_ → i ≠ 0) →
  (∀ i m, i ∈ is_ → m ∈ range 1 (rem `div` i + 1) →
     ∃ c, call (rem - m * i) (i + 1) (d + 1) = Done c) →
  ∃ V', Engine.loop_i K scale call rem d is_ V = Done V' ∧ length V' = length V.
Proof.
  induction is_ as [|i is_ IH]; intros V Hnz Hcall; [by exists V|].
  cbn [Engine.loop_i]. case_decide; [by exists V|].
  rewrite decide_False by (apply Hnz; left).
  destruct (loop_m_done call rem i d (range 1 (rem `div` i + 1)) V) as (V1 & Hrun1 & Hlen1).
  { intros m Hm. apply Hcall; [left|done]. }
  rewrite Hrun1. cbn [mbind outcome_bind].
  destruct (IH V1) as (V' & Hrun & Hlen).
  { intros i' Hi'. apply Hnz. by right. }
  { intros i' m Hi' Hm. apply Hcall; [by right|done]. }
  exists V'. split; [done|]. by rewrite Hlen.
Qed.

Lemma rec_total : ∀ (fuel : nat) (rem lo d : Z),
  0 ≤ rem → 1 ≤ lo → (Z.to_nat rem < fuel)%nat →
  ∃ V, Engine.rec K scale fuel rem lo d = Done V ∧ length V = Z.to_nat (K + 1).
Proof.
  induction fuel as [|fuel IH]; intros rem lo d Hrem Hlo Hfuel; [lia|].
  cbn [Engine.rec]. unfold Engine.rec_body. case_decide.
  - eexists. split; [done|]. case_decide; rewrite ?length_insert, length_replicate; done.
  - destruct (loop_i_done (Engine.rec K scale fuel) rem d (range lo (rem + 1))
                (replicate (Z.to_nat (K + 1)) 0)) as (V' & Hrun & Hlen).
    + intros i Hi%elem_of_range. lia.
    + intros i m Hi Hm.
      destruct (child_state rem lo i m) as [? ?]; [done..|].
      destruct (IH (rem - m * i) (i + 1) (d + 1)) as (c & Hc & _); [lia..|].
      by exists c.
    + exists V'. split; [done|]. by rewrite Hlen, length_replicate.
Qed.

Lemma rec_fuel : ∀ (f1 f2 : nat) (rem lo d : Z),
  0 ≤ rem → 1 ≤ lo → (Z.to_nat rem < f1)%nat → (Z.to_nat rem < f2)%nat →
  Engine.rec K scale f1 rem lo d = Engine.rec K scale f2 rem lo d.
Proof.
  induction f1 as [|f1 IH]; intros [|f2] rem lo d Hrem Hlo H1 H2; try lia.
  cbn [Engine.rec]. apply rec_body_local; [done..|].
  intros r l d' Hr Hl _ _. apply IH; lia.
Qed.

(** Every vector returned by [rec] has [K + 1] entries, so that the indices
    used by [add_entry] and [row_of] are in range. *)
Lemma loop_m_length call (rem i d : Z) : ∀ (ms V V' : list Z),
  Engine.loop_m K scale call rem i d ms V = Done V' → length V' = length V.
Proof.
  induction ms as [|m ms IH]; intros V V' Hrun.
  - by injection Hrun as <-.
  - cbn [Engine.loop_m] in Hrun.
    destruct (call _ _ _) as [c| | |]; try done. cbn [mbind outcome_bind] in Hrun.
    apply IH in Hrun. by rewrite Hrun, length_loop_k.
Qed.

Lemma loop_i_length call (rem d : Z) : ∀ (is_ V V' : list Z),
  Engine.loop_i K scale call rem d is_ V = Done V' → length V' = length V.
Proof.
  induction is_ as [|i is_ IH]; intros V V' Hrun.
  - by injection Hrun as <-.
  - cbn [Engine.loop_i] in Hrun. case_decide; [by injection Hrun as <-|].
    case_decide; [done|].
    destruct (Engine.loop_m _ _ _ _ _ _ _ _) as [V1| | |] eqn:Hm; try done.
    cbn [mbind outcome_bind] in Hrun. apply IH in Hrun.
    apply loop_m_length in Hm. congruence.
Qed.

Lemma rec_length (fuel : nat) (rem lo d : Z) (V : list Z) :
  Engine.rec K scale fuel rem lo d = Done V → length V = Z.to_nat (K + 1).
Proof.
  destruct fuel as [|fuel]; [done|]. cbn [Engine.rec]. unfold Engine.rec_body.
  case_decide.
  - intros [= <-]. case_decide; rewrite ?length_insert, length_replicate; done.
  - intros Hrun%loop_i_length. by rewrite Hrun, length_replicate.
Qed.
End engine_termination.

(** * The table of statistics *)

Lemma lookup_list_to_map_graph (f : Z → Z) (ks : list Z) (k : Z) :
  (list_to_map ((λ k, (k, f k)) <$> ks) : gmap Z Z) !! k
  = if decide (k ∈ ks) then Some (f k) else None.
Proof.
  induction ks as [|k0 ks IH].
  - rewrite decide_False; [apply lookup_empty|apply not_elem_of_nil].
  - rewrite fmap_cons.
    change (list_to_map ((k0, f k0) :: ((λ k, (k, f k)) <$> ks)) : gmap Z Z)
      with (<[k0 := f k0]> (list_to_map ((λ k, (k, f k)) <$> ks) : gmap Z Z)).
    rewrite lookup_insert.
    destruct (decide (k0 = k)) as [->|Hne].
    + rewrite decide_True; [done|left].
    + rewrite IH. destruct (decide (k ∈ ks)).
      * rewrite decide_True; [done|by right].
      * rewrite decide_False; [done|]. intros [?|?]%elem_of_cons; done.
Qed.

Section table_facts.
Import Reference.
Variable Kn : nat.
Variable scale : Z → Z → Z.
Hypothesis Hscale : ∀ m c, 1 ≤ m → scale m c = m * c.
Local Abbreviation K := (Z.of_nat Kn).

Lemma row_of_lookup (V : list Z) (k : Z) :
  Engine.row_of K V !! k = if decide (1 ≤ k ≤ K) then Some (V !!! Z.to_nat k) else None.
Proof.
  unfold Engine.row_of. rewrite lookup_list_to_map_graph.
  destruct (decide (1 ≤ k ≤ K)).
  - rewrite decide_True; [done|]. apply elem_of_range. lia.
  - rewrite decide_False; [done|]. rewrite elem_of_range. lia.
Qed.

Lemma fill_lookup (fuel : nat) (v : Z → list Z) : ∀ (ns : list Z) (Ms : gmap Z (gmap Z Z)),
  (∀ n, n ∈ ns → Engine.rec K scale fuel n 1 0 = Done (v n)) →
  ∃ Ms', Engine.fill K scale fuel ns Ms = Done Ms'
         ∧ ∀ n, Ms' !! n = if decide (n ∈ ns) then Some (Engine.row_of K (v n))
                           else Ms !! n.
Proof.
  induction ns as [|n0 ns IH]; intros Ms Hrec.
  - exists Ms. split; [done|]. intros n.
    rewrite decide_False; [done|apply not_elem_of_nil].
  - cbn [Engine.fill]. rewrite (Hrec n0) by left. cbn [mbind outcome_bind].
    destruct (IH (<[n0 := Engine.row_of K (v n0)]> Ms)) as (Ms' & Hrun & HMs').
    { intros n Hn. apply Hrec. by right. }
    exists Ms'. split; [done|]. intros n. rewrite HMs'.
    destruct (decide (n ∈ ns)) as [Hin|Hin].
    + rewrite decide_True; [done|by right].
    + rewrite lookup_insert. destruct (decide (n0 = n)) as [->|Hne].
      * rewrite decide_True; [done|left].
      * rewrite decide_False; [done|]. intros [?|?]%elem_of_cons; done.
Qed.

Lemma rec_root (fuel : nat) (n : Z) :
  0 ≤ n → (Z.to_nat n < fuel)%nat →
  Engine.rec K scale fuel n 1 0 = Done (stat_vector Kn 0 1 (Z.to_nat n)).
Proof.
  intros Hn Hfuel.
  pose proof (rec_spec Kn scale Hscale fuel (Z.to_nat n) 1 0 Hfuel ltac:(lia)) as Hrec.
  by rewrite Z2Nat.id in Hrec by done.
Qed.

(** The table built by [compute_M_up_to]. *)
Lemma compute_M_spec (fuel : nat) (n_max : Z) :
  (Z.to_nat n_max < fuel)%nat →
  ∃ Ms, Engine.compute_M_up_to K scale fuel n_max = Done Ms
        ∧ ∀ n, Ms !! n = if decide (0 ≤ n ≤ n_max)
                         then Some (Engine.row_of K (stat_vector Kn 0 1 (Z.to_nat n)))
                         else None.
Proof.
  intros Hfuel. unfold Engine.compute_M_up_to.
  destruct (fill_lookup fuel (λ n, stat_vector Kn 0 1 (Z.to_nat n))
              (range 0 (n_max + 1)) ∅) as (Ms & Hrun & HMs).
  { intros n Hn%elem_of_range. apply rec_root; lia. }
  exists Ms. split; [done|]. intros n. rewrite HMs.
  destruct (decide (0 ≤ n ≤ n_max)).
  - rewrite decide_True; [done|]. apply elem_of_range. lia.
  - rewrite decide_False; [done|]. rewrite elem_of_range. lia.
Qed.

(** Entry [k] of row [n] of the table is the reference value [M k n]. *)
Lemma table_entry (n k : Z) :
  0 ≤ n → 1 ≤ k ≤ K →
  stat_vector Kn 0 1 (Z.to_nat n) !!! Z.to_nat k = M (Z.to_nat k) (Z.to_nat n)
  ∧ Engine.row_of K (stat_vector Kn 0 1 (Z.to_nat n)) !! k
    = Some (M (Z.to_nat k) (Z.to_nat n)).
Proof.
  intros Hn Hk.
  assert (stat_vector Kn 0 1 (Z.to_nat n) !!! Z.to_nat k = M (Z.to_nat k) (Z.to_nat n))
    as Hentry.
  { rewrite lookup_stat_vector by lia. by rewrite M_completions. }
  split; [done|]. rewrite row_of_lookup, decide_True by done. by rewrite Hentry.
Qed.

Lemma table_lookup (fuel : nat) (N_MAX n k : Z) :
  0 ≤ n ≤ N_MAX → (Z.to_nat N_MAX < fuel)%nat → 1 ≤ k ≤ K →
  ∃ Ms row V,
    Engine.compute_M_up_to K scale fuel N_MAX = Done Ms
    ∧ Ms !! n = Some row
    ∧ Engine.rec K scale fuel n 1 0 = Done V
    ∧ row !! k = Some (V !!! Z.to_nat k)
    ∧ V !!! Z.to_nat k = M (Z.to_nat k) (Z.to_nat n).
Proof.
  intros Hn Hfuel Hk.
  destruct (compute_M_spec fuel N_MAX Hfuel) as (Ms & Hrun & HMs).
  destruct (table_entry n k) as [Hentry Hrow]; [lia..|].
  exists Ms, (Engine.row_of K (stat_vector Kn 0 1 (Z.to_nat n))),
    (stat_vector Kn 0 1 (Z.to_nat n)).
  split; [done|]. split; [by rewrite HMs, decide_True|].
  split; [apply rec_root; lia|]. split; [by rewrite Hentry|done].
Qed.

Lemma table_row (fuel : nat) (N_MAX n : Z) :
  0 ≤ n ≤ N_MAX → (Z.to_nat N_MAX < fuel)%nat →
  ∃ Ms row,
    Engine.compute_M_up_to K scale fuel N_MAX = Done Ms
    ∧ Ms !! n = Some row
    ∧ ∀ k, 1 ≤ k ≤ K → get row k = M (Z.to_nat k) (Z.to_nat n).
Proof.
  intros Hn Hfuel.
  destruct (compute_M_spec fuel N_MAX Hfuel) as (Ms & Hrun & HMs).
  exists Ms, (Engine.row_of K (stat_vector Kn 0 1 (Z.to_nat n))).
  split; [done|]. split; [by rewrite HMs, decide_True|].
  intros k Hk. destruct (table_entry n k) as [_ Hrow]; [lia..|].
  unfold get. by rewrite Hrow.
Qed.

Lemma table_row_sum (fuel : nat) (N_MAX n : Z) :
  0 ≤ n ≤ N_MAX → (Z.to_nat N_MAX < fuel)%nat →
  ∃ Ms row,
    Engine.compute_M_up_to K scale fuel N_MAX = Done Ms
    ∧ Ms !! n = Some row
    ∧ sumZ (get row <$> range 1 (K + 1))
      = sumZ ((λ k, M k (Z.to_nat n)) <$> seq 1 Kn).
Proof.
  intros Hn Hfuel.
  destruct (table_row fuel N_MAX n Hn Hfuel) as (Ms & row & Hrun & Hrow & Hk).
  exists Ms, row. split; [done|]. split; [done|].
  replace (K + 1) with (Z.of_nat (S Kn)) by lia.
  pose proof (range_of_nat 1 (S Kn)) as Hr.
  change (Z.of_nat 1) with 1 in Hr. rewrite Hr. clear Hr.
  replace (S Kn - 1)%nat with Kn by lia.
  rewrite <-list_fmap_compose. apply sumZ_ext. intros k Hin%elem_of_seq.
  simpl. rewrite Hk by lia. by rewrite Nat2Z.id.
Qed.

Lemma M_vanish (k n : nat) :
  (∀ l, is_partition n l → distinct_sizes l ≠ k) → M k n = 0.
Proof.
  intros Hl. rewrite M_completions. unfold completions. apply sumZ_zero.
  intros l Hin%partitions_spec. rewrite decide_False; [done|].
  simpl. by apply Hl.
Qed.
End table_facts.

Section sums.
Import Reference.

Lemma sumZ_plus {A} (f g : A → Z) (l : list A) :
  sumZ ((λ x, f x + g x) <$> l) = sumZ (f <$> l) + sumZ (g <$> l).
Proof.
  unfold sumZ. induction l as [|x l IH]; [done|].
  rewrite !fmap_cons. cbn [foldr]. rewrite IH. lia.
Qed.

Lemma sumZ_le {A} (f g : A → Z) (l : list A) :
  (∀ x, x ∈ l → f x ≤ g x) → sumZ (f <$> l) ≤ sumZ (g <$> l).
Proof.
  unfold sumZ. induction l as [|x l IH]; intros Hfg; [done|].
  rewrite !fmap_cons. cbn [foldr].
  pose proof (Hfg x ltac:(left)).
  assert (foldr Z.add 0 (f <$> l) ≤ foldr Z.add 0 (g <$> l)); [|lia].
  apply IH. intros y Hy. apply Hfg. by right.
Qed.

Lemma sumZ_ones {A} (l : list A) : sumZ ((λ _, 1) <$> l) = Z.of_nat (length l).
Proof.
  unfold sumZ. induction l as [|x l IH]; [done|].
  rewrite fmap_cons. cbn [foldr length]. rewrite IH. lia.
Qed.

Lemma sumZ_indicator (x : nat) (w : Z) (ks : list nat) :
  NoDup ks →
  sumZ ((λ k, if decide (x = k) then w else 0) <$> ks)
  = if decide (x ∈ ks) then w else 0.
Proof.
  unfold sumZ. induction 1 as [|k ks Hk Hnd IH].
  - rewrite decide_False; [done|apply not_elem_of_nil].
  - rewrite fmap_cons. cbn [foldr]. rewrite IH.
    destruct (decide (x = k)) as [->|Hne].
    + rewrite (decide_False (P := k ∈ ks)) by done.
      rewrite decide_True; [lia|left].
    + destruct (decide (x ∈ ks)).
      * rewrite decide_True; [lia|by right].
      * rewrite decide_False; [lia|]. intros [?|?]%elem_of_cons; done.
Qed.

(** Summing the entries [k ∈ ks] of a statistics vector counts, with its
    weight, every completion whose number of distinct sizes lies in [ks]. *)
Lemma sum_completions (lo n : nat) (ks : list nat) :
  NoDup ks →
  sumZ ((λ k, completions 0 lo n k) <$> ks)
  = sumZ ((λ l, if decide (distinct_sizes l ∈ ks) then weight l else 0)
            <$> parts_ge n lo n).
Proof.
  intros Hnd. unfold completions. generalize (parts_ge n lo n). intros L.
  induction L as [|l L IH].
  - simpl. apply sumZ_zero. done.
  - rewrite fmap_cons. unfold sumZ at 3. cbn [foldr]. fold (sumZ
      ((λ l, if decide (distinct_sizes l ∈ ks) then weight l else 0) <$> L)).
    rewrite <-IH, <-(sumZ_indicator (distinct_sizes l) (weight l) ks Hnd).
    rewrite <-sumZ_plus. apply sumZ_ext. intros k _.
    rewrite fmap_cons. unfold sumZ. cbn [foldr]. done.
Qed.

Lemma sum_M_bounds (Kn n : nat) :
  Z.of_nat (length (filter (λ l, 1 ≤ distinct_sizes l ≤ Kn)%nat (partitions n)))
  ≤ sumZ ((λ k, M k n) <$> seq 1 Kn)
  ≤ sumZ (weight <$> partitions n).
Proof.
  rewrite (sumZ_ext (λ k, M k n) (λ k, completions 0 1 n k))
    by (intros; apply M_completions).
  rewrite sum_completions by apply NoDup_seq. fold (partitions n). split.
  - rewrite <-sumZ_ones, sumZ_filter. apply sumZ_le. intros l _.
    pose proof (weight_ge_1 l).
    destruct (decide (1 ≤ distinct_sizes l ≤ Kn)%nat) as [Hd|Hd].
    + rewrite decide_True; [lia|apply elem_of_seq; lia].
    + case_decide; lia.
  - apply sumZ_le. intros l _. pose proof (weight_ge_1 l). case_decide; lia.
Qed.
End sums.

Lemma binomial_scale (m c : Z) : 1 ≤ m → Binomial.scale m c = m * c.
Proof.
  intros Hm. unfold Binomial.scale. case_decide; [done|].
  by assert (m = 1) as -> by lia.
Qed.

Lemma quartic_scale (m c : Z) : 1 ≤ m → Quartic.scale m c = m * c.
Proof.
  intros Hm. unfold Quartic.scale. case_decide as Hne; [done|].
  assert (m = 1) as -> by (by destruct (decide (m = 1))). lia.
Qed.

(** * The Partition-Statistics Engine: claims *)

Lemma binomial_table (fuel : nat) (N_MAX n k : Z) :
  0 ≤ n ≤ N_MAX → (Z.to_nat N_MAX < fuel)%nat → 1 ≤ k ≤ 3 →
  ∃ Ms row V,
    Binomial.compute_M_up_to_3 fuel N_MAX = Done Ms
    ∧ Ms !! n = Some row
    ∧ Binomial.rec fuel n 1 0 = Done V
    ∧ row !! k = Some (V !!! Z.to_nat k)
    ∧ V !!! Z.to_nat k = Reference.M (Z.to_nat k) (Z.to_nat n).
Proof.
  intros Hn Hfuel Hk.
  apply (table_lookup 3 Binomial.scale binomial_scale); [done..|lia].
Qed.

Lemma quartic_table (fuel : nat) (N_MAX n k : Z) :
  0 ≤ n ≤ N_MAX → (Z.to_nat N_MAX < fuel)%nat → 1 ≤ k ≤ 4 →
  ∃ Ms row V,
    Quartic.compute_M_up_to_4 fuel N_MAX = Done Ms
    ∧ Ms !! n = Some row
    ∧ Quartic.rec fuel n 1 0 = Done V
    ∧ row !! k = Some (V !!! Z.to_nat k)
    ∧ V !!! Z.to_nat k = Reference.M (Z.to_nat k) (Z.to_nat n).
Proof.
  intros Hn Hfuel Hk.
  apply (table_lookup 4 Quartic.scale quartic_scale); [done..|lia].
Qed.

(** C1.  For every [n] in [0, N_MAX] and every [k] in [1, K], the entry
    [M_k(n)] of the table built by the Engine, which is [rec(n, 1, 0)]
    projected at index [k], equals the reference value: the sum, over the
    partitions of [n] with exactly [k] distinct part sizes, of the product of
    the multiplicities of the parts.  This holds for the cubic script (K = 3)
    and for the quartic script (K = 4); in particular [M_1(4) = 7]. *)
Theorem engine_matches_reference (fuel : nat) (N_MAX n k : Z) :
  0 ≤ n ≤ N_MAX → (Z.to_nat N_MAX < fuel)%nat →
  (1 ≤ k ≤ 3 →
     ∃ Ms row V,
       Binomial.compute_M_up_to_3 fuel N_MAX = Done Ms
       ∧ Ms !! n = Some row
       ∧ Binomial.rec fuel n 1 0 = Done V
       ∧ row !! k = Some (V !!! Z.to_nat k)
       ∧ V !!! Z.to_nat k = Reference.M (Z.to_nat k) (Z.to_nat n))
  ∧ (1 ≤ k ≤ 4 →
     ∃ Ms row V,
       Quartic.compute_M_up_to_4 fuel N_MAX = Done Ms
       ∧ Ms !! n = Some row
       ∧ Quartic.rec fuel n 1 0 = Done V
       ∧ row !! k = Some (V !!! Z.to_nat k)
       ∧ V !!! Z.to_nat k = Reference.M (Z.to_nat k) (Z.to_nat n))
  ∧ Reference.M 1 4 = 7.
Proof.
  intros Hn Hfuel. split; [|split].
  - intros Hk. by apply binomial_table.
  - intros Hk. by apply quartic_table.
  - by vm_compute.
Qed.

Lemma engine_matches_reference_witness :
  (0 ≤ 4 ≤ 4 ∧ (Z.to_nat 4 < 5)%nat)
  ∧ (∃ Ms row V,
       Binomial.compute_M_up_to_3 5 4 = Done Ms
       ∧ Ms !! 4 = Some row
       ∧ Binomial.rec 5 4 1 0 = Done V
       ∧ row !! 1 = Some (V !!! Z.to_nat 1)
       ∧ V !!! Z.to_nat 1 = Reference.M (Z.to_nat 1) (Z.to_nat 4))
  ∧ (∃ Ms row V,
       Quartic.compute_M_up_to_4 5 4 = Done Ms
       ∧ Ms !! 4 = Some row
       ∧ Quartic.rec 5 4 1 0 = Done V
       ∧ row !! 1 = Some (V !!! Z.to_nat 1)
       ∧ V !!! Z.to_nat 1 = Reference.M (Z.to_nat 1) (Z.to_nat 4)).
Proof.
  assert (0 ≤ 4 ≤ 4) as Hn by lia.
  assert (Z.to_nat 4 < 5)%nat as Hfuel by (vm_compute; lia).
  destruct (engine_matches_reference 5 4 4 1 Hn Hfuel) as (H3 & H4 & _).
  split; [done|]. split; [apply H3; lia|apply H4; lia].
Defined.

(** C6.  The Engine gives [M_k(0) = 0] for every [k] in [1, K]; and for every
    [n] in [0, N_MAX], [M_k(n) = 0] whenever [k] exceeds the number of
    distinct part sizes of every partition of [n]. *)
Theorem stats_vanish (fuel : nat) (N_MAX n k : Z) :
  0 ≤ n ≤ N_MAX → (Z.to_nat N_MAX < fuel)%nat →
  n = 0 ∨ (∀ l, Reference.is_partition (Z.to_nat n) l →
             (Reference.distinct_sizes l < Z.to_nat k)%nat) →
  (1 ≤ k ≤ 3 →
     ∃ Ms row, Binomial.compute_M_up_to_3 fuel N_MAX = Done Ms
               ∧ Ms !! n = Some row ∧ row !! k = Some 0)
  ∧ (1 ≤ k ≤ 4 →
     ∃ Ms row, Quartic.compute_M_up_to_4 fuel N_MAX = Done Ms
               ∧ Ms !! n = Some row ∧ row !! k = Some 0).
Proof.
  intros Hn Hfuel Hmax.
  assert (1 ≤ k → Reference.M (Z.to_nat k) (Z.to_nat n) = 0) as Hzero.
  { intros Hk. apply M_vanish. intros l Hl. destruct Hmax as [->|Hmax].
    - destruct Hl as (_ & Hall & Hsum). destruct l as [|a l].
      + rewrite distinct_sizes_nil. lia.
      + apply Forall_cons in Hall as [Ha _]. simpl in Hsum. lia.
    - specialize (Hmax l Hl). lia. }
  split; intros Hk.
  - destruct (binomial_table fuel N_MAX n k) as (Ms & row & V & ? & ? & ? & Hrow & HV);
      [done..|].
    exists Ms, row. rewrite Hrow, HV, Hzero by lia. done.
  - destruct (quartic_table fuel N_MAX n k) as (Ms & row & V & ? & ? & ? & Hrow & HV);
      [done..|].
    exists Ms, row. rewrite Hrow, HV, Hzero by lia. done.
Qed.

Lemma stats_vanish_witness :
  (0 ≤ 5 ≤ 5 ∧ (Z.to_nat 5 < 6)%nat)
  ∧ (∃ Ms row, Binomial.compute_M_up_to_3 6 5 = Done Ms
               ∧ Ms !! 5 = Some row ∧ row !! 3 = Some 0)
  ∧ (∃ Ms row, Quartic.compute_M_up_to_4 6 5 = Done Ms
               ∧ Ms !! 5 = Some row ∧ row !! 3 = Some 0).
Proof.
  assert (0 ≤ 5 ≤ 5) as Hn by lia.
  assert (Z.to_nat 5 < 6)%nat as Hfuel by (vm_compute; lia).
  assert (5 = 0 ∨ (∀ l, Reference.is_partition (Z.to_nat 5) l →
                        (Reference.distinct_sizes l < Z.to_nat 3)%nat)) as Hmax.
  { right. intros l Hl. apply partitions_spec in Hl. revert l Hl.
    apply Forall_forall. apply (bool_decide_unpack _). by vm_compute. }
  destruct (stats_vanish 6 5 5 3 Hn Hfuel Hmax) as [H3 H4].
  split; [done|]. split; [apply H3; lia|apply H4; lia].
Defined.

(** C7.  Every component of every statistics vector returned by
    [rec(remaining, min_part, distinct_used)] is a non-negative integer, for
    every state with [remaining ≥ 0], [min_part ≥ 1] and
    [0 ≤ distinct_used ≤ K] (the vector has [K + 1] components); hence
    [M_k(n) ≥ 0] for all [n] in [0, N_MAX] and [k] in [1, K].  Both
    scripts. *)
Theorem rec_nonnegative (remaining min_part distinct_used : Z)
    (fuel : nat) (N_MAX n k : Z) :
  0 ≤ remaining → 1 ≤ min_part →
  0 ≤ n ≤ N_MAX → (Z.to_nat N_MAX < fuel)%nat →
  (0 ≤ distinct_used ≤ 3 →
     ∃ V, Binomial.rec (S (Z.to_nat remaining)) remaining min_part distinct_used = Done V
          ∧ length V = 4%nat ∧ Forall (λ v, 0 ≤ v) V)
  ∧ (0 ≤ distinct_used ≤ 4 →
     ∃ V, Quartic.rec (S (Z.to_nat remaining)) remaining min_part distinct_used = Done V
          ∧ length V = 5%nat ∧ Forall (λ v, 0 ≤ v) V)
  ∧ (1 ≤ k ≤ 3 →
     ∃ Ms row v, Binomial.compute_M_up_to_3 fuel N_MAX = Done Ms
                 ∧ Ms !! n = Some row ∧ row !! k = Some v ∧ 0 ≤ v)
  ∧ (1 ≤ k ≤ 4 →
     ∃ Ms row v, Quartic.compute_M_up_to_4 fuel N_MAX = Done Ms
                 ∧ Ms !! n = Some row ∧ row !! k = Some v ∧ 0 ≤ v).
Proof.
  intros Hrem Hlo Hn Hfuel.
  assert (∀ Kn, Forall (λ v, 0 ≤ v)
            (Reference.stat_vector Kn (Z.to_nat distinct_used) (Z.to_nat min_part)
               (Z.to_nat remaining))) as Hnn.
  { intros Kn. unfold Reference.stat_vector. apply Forall_fmap, Forall_forall.
    intros j _. simpl. case_decide; [done|apply completions_nonneg]. }
  assert (0 ≤ Reference.M (Z.to_nat k) (Z.to_nat n)) as HM.
  { rewrite M_completions. apply completions_nonneg. }
  split; [|split; [|split]]; intros Hd.
  - pose proof (rec_spec 3 Binomial.scale binomial_scale (S (Z.to_nat remaining))
                  (Z.to_nat remaining) (Z.to_nat min_part) (Z.to_nat distinct_used)
                  ltac:(lia) ltac:(lia)) as Hrec.
    rewrite !Z2Nat.id in Hrec by lia.
    eexists. split; [exact Hrec|]. split; [apply length_stat_vector|apply Hnn].
  - pose proof (rec_spec 4 Quartic.scale quartic_scale (S (Z.to_nat remaining))
                  (Z.to_nat remaining) (Z.to_nat min_part) (Z.to_nat distinct_used)
                  ltac:(lia) ltac:(lia)) as Hrec.
    rewrite !Z2Nat.id in Hrec by lia.
    eexists. split; [exact Hrec|]. split; [apply length_stat_vector|apply Hnn].
  - destruct (binomial_table fuel N_MAX n k) as (Ms & row & V & ? & ? & _ & Hrow & HV);
      [done..|].
    exists Ms, row, (Reference.M (Z.to_nat k) (Z.to_nat n)).
    by rewrite Hrow, HV.
  - destruct (quartic_table fuel N_MAX n k) as (Ms & row & V & ? & ? & _ & Hrow & HV);
      [done..|].
    exists Ms, row, (Reference.M (Z.to_nat k) (Z.to_nat n)).
    by rewrite Hrow, HV.
Qed.

Lemma rec_nonnegative_witness :
  (0 ≤ 7 ∧ 1 ≤ 2 ∧ 0 ≤ 6 ≤ 8 ∧ (Z.to_nat 8 < 9)%nat)
  ∧ (∃ V, Binomial.rec (S (Z.to_nat 7)) 7 2 1 = Done V
          ∧ length V = 4%nat ∧ Forall (λ v, 0 ≤ v) V)
  ∧ (∃ V, Quartic.rec (S (Z.to_nat 7)) 7 2 1 = Done V
          ∧ length V = 5%nat ∧ Forall (λ v, 0 ≤ v) V)
  ∧ (∃ Ms row v, Binomial.compute_M_up_to_3 9 8 = Done Ms
                 ∧ Ms !! 6 = Some row ∧ row !! 2 = Some v ∧ 0 ≤ v)
  ∧ (∃ Ms row v, Quartic.compute_M_up_to_4 9 8 = Done Ms
                 ∧ Ms !! 6 = Some row ∧ row !! 2 = Some v ∧ 0 ≤ v).
Proof.
  assert (0 ≤ 7) as Hrem by lia.
  assert (1 ≤ 2) as Hlo by lia.
  assert (0 ≤ 6 ≤ 8) as Hn by lia.
  assert (Z.to_nat 8 < 9)%nat as Hfuel by (vm_compute; lia).
  destruct (rec_nonnegative 7 2 1 9 8 6 2 Hrem Hlo Hn Hfuel) as (H3 & H4 & T3 & T4).
  split; [done|].
  split; [apply H3; lia|]. split; [apply H4; lia|].
  split; [apply T3; lia|apply T4; lia].
Defined.

(** C8.  The recursion [rec(remaining, min_part, distinct_used)] terminates
    for every input with [remaining ≥ 0] and [min_part ≥ 1]: it returns one
    and the same vector for every recursion budget above [remaining], and its
    body makes recursive calls only at states with a strictly smaller
    non-negative [remaining] (and a larger [min_part]) and with
    [distinct_used + 1], capped at [K].  Both scripts. *)
Theorem rec_terminates (remaining min_part distinct_used : Z) :
  0 ≤ remaining → 1 ≤ min_part →
  (∃ V, ∀ fuel, (Z.to_nat remaining < fuel)%nat →
          Binomial.rec fuel remaining min_part distinct_used = Done V)
  ∧ (∃ V, ∀ fuel, (Z.to_nat remaining < fuel)%nat →
          Quartic.rec fuel remaining min_part distinct_used = Done V)
  ∧ (∀ call1 call2,
       (∀ r l d, 0 ≤ r < remaining → min_part < l → d = distinct_used + 1 → d ≤ 3 →
                 call1 r l d = call2 r l d) →
       Engine.rec_body 3 Binomial.scale call1 remaining min_part distinct_used
       = Engine.rec_body 3 Binomial.scale call2 remaining min_part distinct_used)
  ∧ (∀ call1 call2,
       (∀ r l d, 0 ≤ r < remaining → min_part < l → d = distinct_used + 1 → d ≤ 4 →
                 call1 r l d = call2 r l d) →
       Engine.rec_body 4 Quartic.scale call1 remaining min_part distinct_used
       = Engine.rec_body 4 Quartic.scale call2 remaining min_part distinct_used).
Proof.
  intros Hrem Hlo. repeat split.
  - destruct (rec_total 3 Binomial.scale (S (Z.to_nat remaining)) remaining min_part
                distinct_used) as (V & HV & _); [lia..|].
    exists V. intros fuel Hfuel. rewrite <-HV. apply rec_fuel; lia.
  - destruct (rec_total 4 Quartic.scale (S (Z.to_nat remaining)) remaining min_part
                distinct_used) as (V & HV & _); [lia..|].
    exists V. intros fuel Hfuel. rewrite <-HV. apply rec_fuel; lia.
  - intros call1 call2 Hcall. by apply rec_body_local.
  - intros call1 call2 Hcall. by apply rec_body_local.
Qed.

Lemma rec_terminates_witness :
  (0 ≤ 6 ∧ 1 ≤ 1)
  ∧ (∃ V, ∀ fuel, (Z.to_nat 6 < fuel)%nat → Binomial.rec fuel 6 1 0 = Done V)
  ∧ (∃ V, ∀ fuel, (Z.to_nat 6 < fuel)%nat → Quartic.rec fuel 6 1 0 = Done V).
Proof.
  assert (0 ≤ 6) as Hrem by lia.
  assert (1 ≤ 1) as Hlo by lia.
  destruct (rec_terminates 6 1 0 Hrem Hlo) as (H3 & H4 & _).
  split; [done|]. split; [exact H3|exact H4].
Defined.

(** C9.  For every [n] in the table range and every [k] in {1, 2, 3}, the
    K = 3 Engine ([compute_M_up_to_3]) and the K = 4 Engine
    ([compute_M_up_to_4]) produce the same value [M_k(n)]. *)
Theorem engines_agree (fuel : nat) (N_MAX n k : Z) :
  0 ≤ n ≤ N_MAX → (Z.to_nat N_MAX < fuel)%nat → 1 ≤ k ≤ 3 →
  ∃ Ms3 Ms4 row3 row4 v,
    Binomial.compute_M_up_to_3 fuel N_MAX = Done Ms3
    ∧ Quartic.compute_M_up_to_4 fuel N_MAX = Done Ms4
    ∧ Ms3 !! n = Some row3 ∧ Ms4 !! n = Some row4
    ∧ row3 !! k = Some v ∧ row4 !! k = Some v.
Proof.
  intros Hn Hfuel Hk.
  destruct (binomial_table fuel N_MAX n k) as (Ms3 & row3 & V3 & ? & ? & _ & Hr3 & HV3);
    [done..|].
  destruct (quartic_table fuel N_MAX n k) as (Ms4 & row4 & V4 & ? & ? & _ & Hr4 & HV4);
    [done|done|lia|].
  exists Ms3, Ms4, row3, row4, (Reference.M (Z.to_nat k) (Z.to_nat n)).
  rewrite Hr3, Hr4, HV3, HV4. done.
Qed.

Lemma engines_agree_witness :
  (0 ≤ 9 ≤ 10 ∧ (Z.to_nat 10 < 11)%nat ∧ 1 ≤ 2 ≤ 3)
  ∧ ∃ Ms3 Ms4 row3 row4 v,
      Binomial.compute_M_up_to_3 11 10 = Done Ms3
      ∧ Quartic.compute_M_up_to_4 11 10 = Done Ms4
      ∧ Ms3 !! 9 = Some row3 ∧ Ms4 !! 9 = Some row4
      ∧ row3 !! 2 = Some v ∧ row4 !! 2 = Some v.
Proof.
  assert (0 ≤ 9 ≤ 10) as Hn by lia.
  assert (Z.to_nat 10 < 11)%nat as Hfuel by (vm_compute; lia).
  assert (1 ≤ 2 ≤ 3) as Hk by lia.
  split; [done|]. exact (engines_agree 11 10 9 2 Hn Hfuel Hk).
Defined.

(** C5, as stated, fails: at [n = 4] the computed [M_1 + M_2 + M_3] is
    [7 + 3 + 0 = 10] (and [M_4 = 0]), whereas there are [p(4) = 5] partitions
    of 4. *)
Lemma stats_sum_exceeds_partition_count :
  (∃ Ms row, Binomial.compute_M_up_to_3 5 4 = Done Ms ∧ Ms !! 4 = Some row
             ∧ ¬ (Reference.sumZ (get row <$> range 1 4) ≤ Z.of_nat (Reference.p 4)))
  ∧ (∃ Ms row, Quartic.compute_M_up_to_4 5 4 = Done Ms ∧ Ms !! 4 = Some row
               ∧ ¬ (Reference.sumZ (get row <$> range 1 5) ≤ Z.of_nat (Reference.p 4))).
Proof.
  split.
  - destruct (table_row_sum 3 Binomial.scale binomial_scale 5 4 4)
      as (Ms & row & Hrun & Hrow & Hsum); [lia|vm_compute; lia|].
    exists Ms, row. split; [done|]. split; [done|].
    change (Z.of_nat 3 + 1) with 4 in Hsum. rewrite Hsum. by vm_compute.
  - destruct (table_row_sum 4 Quartic.scale quartic_scale 5 4 4)
      as (Ms & row & Hrun & Hrow & Hsum); [lia|vm_compute; lia|].
    exists Ms, row. split; [done|]. split; [done|].
    change (Z.of_nat 4 + 1) with 5 in Hsum. rewrite Hsum. by vm_compute.
Qed.

(** C5, amended.  For every [n] in [0, N_MAX], the sum of [M_k(n)] over
    [k = 1..K] as computed by the Engine does not exceed the weighted number
    of partitions of [n] (each partition counted with the product of its
    multiplicities), and it is at least the number of partitions of [n] that
    have between 1 and [K] distinct part sizes.  Both scripts. *)
Theorem stats_sum_bounds (fuel : nat) (N_MAX n : Z) :
  0 ≤ n ≤ N_MAX → (Z.to_nat N_MAX < fuel)%nat →
  (∃ Ms row,
     Binomial.compute_M_up_to_3 fuel N_MAX = Done Ms ∧ Ms !! n = Some row
     ∧ Z.of_nat (length (filter (λ l, 1 ≤ Reference.distinct_sizes l ≤ 3)%nat
                           (Reference.partitions (Z.to_nat n))))
       ≤ Reference.sumZ (get row <$> range 1 4)
       ≤ Reference.sumZ (Reference.weight <$> Reference.partitions (Z.to_nat n)))
  ∧ (∃ Ms row,
     Quartic.compute_M_up_to_4 fuel N_MAX = Done Ms ∧ Ms !! n = Some row
     ∧ Z.of_nat (length (filter (λ l, 1 ≤ Reference.distinct_sizes l ≤ 4)%nat
                           (Reference.partitions (Z.to_nat n))))
       ≤ Reference.sumZ (get row <$> range 1 5)
       ≤ Reference.sumZ (Reference.weight <$> Reference.partitions (Z.to_nat n))).
Proof.
  intros Hn Hfuel. split.
  - destruct (table_row_sum 3 Binomial.scale binomial_scale fuel N_MAX n)
      as (Ms & row & Hrun & Hrow & Hsum); [done..|].
    exists Ms, row. split; [done|]. split; [done|].
    change (Z.of_nat 3 + 1) with 4 in Hsum. rewrite Hsum. apply sum_M_bounds.
  - destruct (table_row_sum 4 Quartic.scale quartic_scale fuel N_MAX n)
      as (Ms & row & Hrun & Hrow & Hsum); [done..|].
    exists Ms, row. split; [done|]. split; [done|].
    change (Z.of_nat 4 + 1) with 5 in Hsum. rewrite Hsum. apply sum_M_bounds.
Qed.

Lemma stats_sum_bounds_witness :
  (0 ≤ 4 ≤ 6 ∧ (Z.to_nat 6 < 7)%nat)
  ∧ (∃ Ms row,
     Binomial.compute_M_up_to_3 7 6 = Done Ms ∧ Ms !! 4 = Some row
     ∧ Z.of_nat (length (filter (λ l, 1 ≤ Reference.distinct_sizes l ≤ 3)%nat
                           (Reference.partitions (Z.to_nat 4))))
       ≤ Reference.sumZ (get row <$> range 1 4)
       ≤ Reference.sumZ (Reference.weight <$> Reference.partitions (Z.to_nat 4)))
  ∧ (∃ Ms row,
     Quartic.compute_M_up_to_4 7 6 = Done Ms ∧ Ms !! 4 = Some row
     ∧ Z.of_nat (length (filter (λ l, 1 ≤ Reference.distinct_sizes l ≤ 4)%nat
                           (Reference.partitions (Z.to_nat 4))))
       ≤ Reference.sumZ (get row <$> range 1 5)
       ≤ Reference.sumZ (Reference.weight <$> Reference.partitions (Z.to_nat 4))).
Proof.
  assert (0 ≤ 4 ≤ 6) as Hn by lia.
  assert (Z.to_nat 6 < 7)%nat as Hfuel by (vm_compute; lia).
  split; [done|]. exact (stats_sum_bounds 7 6 4 Hn Hfuel).
Defined.

(** * The Detector Evaluators: claims *)

Lemma quartic_L4_poly (n : Z) (Ms_for_n : gmap Z Z) :
  Quartic.quartic_L4 n Ms_for_n
  = Done ((-4305 * n ^ 3 + 12915 * n ^ 2 - 8610 * n) * get Ms_for_n 1
          + (-2296 * n ^ 3 + 18368 * n ^ 2) * get Ms_for_n 2
          + (-3200 * n ^ 3 + 48640 * n ^ 2) * get Ms_for_n 3
          + 967680 * n * get Ms_for_n 4).
Proof.
  unfold Quartic.quartic_L4.
  assert (∀ (key : string) (v : Z), Quartic.COEFFS !! key = Some v →
            item Quartic.COEFFS key = Done v) as Hitem.
  { intros key v Hv. unfold item. by rewrite Hv. }
  rewrite (Hitem "M1_n3"%string (-4305)) by reflexivity.
  rewrite (Hitem "M1_n2"%string 12915) by reflexivity.
  rewrite (Hitem "M1_n1"%string (-8610)) by reflexivity.
  rewrite (Hitem "M2_n3"%string (-2296)) by reflexivity.
  rewrite (Hitem "M2_n2"%string 18368) by reflexivity.
  rewrite (Hitem "M3_n3"%string (-3200)) by reflexivity.
  rewrite (Hitem "M3_n2"%string 48640) by reflexivity.
  rewrite (Hitem "M4_n1"%string 967680) by reflexivity.
  cbn [mbind outcome_bind]. f_equal. lia.
Qed.

(** C3.  [quartic_L4(n, Ms_for_n)] returns, without raising, exactly
    [(-4305n^3+12915n^2-8610n)*M1 + (-2296n^3+18368n^2)*M2
     + (-3200n^3+48640n^2)*M3 + 967680n*M4], where each [M_k] is taken from
    the mapping and an absent key [k] is treated as 0; this holds for every
    integer [n], in particular for [n ≥ 0]. *)
Theorem quartic_L4_formula (n : Z) (Ms_for_n : gmap Z Z) :
  Quartic.quartic_L4 n Ms_for_n
  = Done ((-4305 * n ^ 3 + 12915 * n ^ 2 - 8610 * n) * default 0 (Ms_for_n !! 1)
          + (-2296 * n ^ 3 + 18368 * n ^ 2) * default 0 (Ms_for_n !! 2)
          + (-3200 * n ^ 3 + 48640 * n ^ 2) * default 0 (Ms_for_n !! 3)
          + 967680 * n * default 0 (Ms_for_n !! 4)).
Proof. apply quartic_L4_poly. Qed.

(** C2, as stated, fails at [n = 2]: the guard [if n < 3: return 0] returns 0
    where the formula gives [-5*M2 - 80*M3]. *)
Lemma cubic_detector_differs_at_2 :
  Binomial.binomial_cubic_detector 2 (<[1 := 0]> (<[2 := 1]> (<[3 := 0]> ∅)))
  ≠ (2 - 1) * (2 - 2) * (0 + 1) - 5 * (2 - 1) * 1 - 80 * 0.
Proof. by vm_compute. Qed.

(** C2, amended.  For every integer [n ≥ 3] and all integer statistics
    [M1], [M2], [M3] supplied to it, [binomial_cubic_detector] returns exactly
    [(n-1)(n-2)*(M1+M2) - 5(n-1)*M2 - 80*M3]. *)
Theorem cubic_detector_formula (n M1 M2 M3 : Z) (Ms_for_n : gmap Z Z) :
  3 ≤ n →
  Ms_for_n !! 1 = Some M1 → Ms_for_n !! 2 = Some M2 → Ms_for_n !! 3 = Some M3 →
  Binomial.binomial_cubic_detector n Ms_for_n
  = (n - 1) * (n - 2) * (M1 + M2) - 5 * (n - 1) * M2 - 80 * M3.
Proof.
  intros Hn H1 H2 H3. unfold Binomial.binomial_cubic_detector, get.
  rewrite decide_False by lia. by rewrite H1, H2, H3.
Qed.

Lemma cubic_detector_formula_witness :
  3 ≤ 8
  ∧ Binomial.binomial_cubic_detector 8 (<[1 := 15]> (<[2 := 40]> (<[3 := 7]> ∅)))
    = (8 - 1) * (8 - 2) * (15 + 40) - 5 * (8 - 1) * 40 - 80 * 7.
Proof.
  assert (3 ≤ 8) as Hn by lia.
  split; [done|].
  apply (cubic_detector_formula 8 15 40 7); [done|reflexivity..].
Defined.

(** C10.  For every [n < 3] and every statistics mapping whatsoever,
    [binomial_cubic_detector(n, Ms_for_n)] returns 0; in particular the line
    of the cubic pipeline for [n = 2] carries the detector value 0, the value
    that stands for "prime", whatever the row of the table holds, so that
    [n = 2] passes exactly when the oracle says it is prime. *)
Theorem cubic_detector_below_3 (n : Z) (Ms_for_n : gmap Z Z)
    (isprime : Z → bool) (Ms : gmap Z (gmap Z Z)) (row : gmap Z Z)
    (st : list Binomial.line * list Z) :
  n < 3 → Ms !! 2 = Some row →
  Binomial.binomial_cubic_detector n Ms_for_n = 0
  ∧ Binomial.step isprime Ms st 2
    = Done (st.1 ++ [Binomial.Line 2 (isprime 2) 0 (isprime 2)],
            if isprime 2 then st.2 else st.2 ++ [2]).
Proof.
  intros Hn Hrow. split.
  - unfold Binomial.binomial_cubic_detector. by rewrite decide_True.
  - unfold Binomial.step, item. rewrite Hrow. cbn [mbind outcome_bind].
    unfold Binomial.binomial_cubic_detector. rewrite decide_True by lia.
    unfold Binomial.passed. by destruct (isprime 2).
Qed.

Lemma cubic_detector_below_3_witness :
  (2 < 3 ∧ (<[2 := <[1 := 3]> (<[2 := 5]> (<[3 := 9]> ∅))]> ∅ : gmap Z (gmap Z Z)) !! 2
           = Some (<[1 := 3]> (<[2 := 5]> (<[3 := 9]> ∅))))
  ∧ Binomial.binomial_cubic_detector 2 (<[1 := 3]> (<[2 := 5]> (<[3 := 9]> ∅))) = 0
  ∧ Binomial.step Reference.trial_prime
      (<[2 := <[1 := 3]> (<[2 := 5]> (<[3 := 9]> ∅))]> ∅) ([], []) 2
    = Done ([Binomial.Line 2 true 0 true], []).
Proof.
  assert (2 < 3) as Hn by lia.
  assert ((<[2 := <[1 := 3]> (<[2 := 5]> (<[3 := 9]> ∅))]> ∅ : gmap Z (gmap Z Z)) !! 2
          = Some (<[1 := 3]> (<[2 := 5]> (<[3 := 9]> ∅)))) as Hrow by reflexivity.
  split; [done|].
  exact (cubic_detector_below_3 2 (<[1 := 3]> (<[2 := 5]> (<[3 := 9]> ∅)))
           Reference.trial_prime _ _ ([], []) Hn Hrow).
Defined.

(** * The Verification Drivers: claims *)

Lemma range_sorted (a b : Z) : StronglySorted Z.lt (range a b).
Proof.
  unfold range, seqZ. generalize (Z.to_nat (b - a)). intros len.
  apply (StronglySorted_fmap _ lt); [lia|].
  generalize 0%nat. induction len as [|len IH]; intros s; simpl; constructor.
  - apply IH.
  - apply Forall_forall. intros x Hx%elem_of_seq. lia.
Qed.

Lemma filter_sorted {A} (R : relation A) (P : A → Prop) `{∀ x, Decision (P x)}
    (l : list A) :
  StronglySorted R l → StronglySorted R (filter P l).
Proof.
  induction 1 as [|x l Hs IH Hx]; [constructor|].
  rewrite filter_cons. case_decide; [|done].
  constructor; [done|]. apply Forall_forall. intros y Hy%list_elem_of_filter.
  rewrite Forall_forall in Hx. apply Hx. tauto.
Qed.

Lemma failures_numbers (p : Z → bool) (v : Z → Z) (l : list Z) :
  (λ f : Z * bool * Z, f.1.1) <$> ((λ n, (n, p n, v n)) <$> l) = l.
Proof. induction l as [|n l IH]; [done|]. rewrite !fmap_cons, IH. done. Qed.

Lemma ok_iff (p : bool) (v : Z) :
  Quartic.ok p v = true ↔ (p = true ∧ v = 0) ∨ (p = false ∧ v ≠ 0).
Proof.
  unfold Quartic.ok.
  destruct p; simpl; repeat case_bool_decide; intuition (congruence || lia).
Qed.

Lemma passed_iff (p : bool) (v : Z) :
  Binomial.passed p v = true ↔ (p = true ∧ v = 0) ∨ (p = false ∧ v ≠ 0).
Proof.
  unfold Binomial.passed.
  destruct p; simpl; repeat case_bool_decide; intuition (congruence || lia).
Qed.

Section drivers.
Variable isprime : Z → bool.
Variable Ms : gmap Z (gmap Z Z).
Variable val : Z → Z.

(** The loop of [verify_range] visits every element of its range: a failure
    only extends [failures]. *)
Lemma quartic_loop_spec (verbose : bool) : ∀ (ns : list Z) st,
  (∀ n, n ∈ ns → ∃ row, Ms !! n = Some row ∧ Quartic.quartic_L4 n row = Done (val n)) →
  Quartic.loop isprime verbose Ms ns st
  = Done (st.1 ++ (if verbose
                   then (λ n, Quartic.Line n (isprime n) (val n)
                                (Quartic.ok (isprime n) (val n))) <$> ns
                   else []),
          st.2 ++ ((λ n, (n, isprime n, val n))
                     <$> filter (λ n, Quartic.ok (isprime n) (val n) = false) ns)).
Proof.
  induction ns as [|n ns IH]; intros [out fails] Hrows.
  - simpl. destruct verbose; by rewrite !app_nil_r.
  - destruct (Hrows n) as (row & Hrow & Hval); [left|].
    cbn [Quartic.loop]. unfold Quartic.step, item.
    rewrite Hrow. cbn [mbind outcome_bind]. rewrite Hval. cbn [mbind outcome_bind].
    rewrite IH by (intros n' Hn'; apply Hrows; by right).
    cbn [fst snd]. rewrite filter_cons. f_equal. f_equal.
    + destruct verbose; [|done]. by rewrite fmap_cons, <-app_assoc.
    + destruct (Quartic.ok (isprime n) (val n)) eqn:Hok; simpl.
      * done.
      * by rewrite <-app_assoc.
Qed.

Lemma binomial_loop_spec : ∀ (ns : list Z) st,
  (∀ n, n ∈ ns →
     ∃ row, Ms !! n = Some row ∧ Binomial.binomial_cubic_detector n row = val n) →
  Binomial.loop isprime Ms ns st
  = Done (st.1 ++ ((λ n, Binomial.Line n (isprime n) (val n)
                           (Binomial.passed (isprime n) (val n))) <$> ns),
          st.2 ++ filter (λ n, Binomial.passed (isprime n) (val n) = false) ns).
Proof.
  induction ns as [|n ns IH]; intros [out fails] Hrows.
  - simpl. by rewrite !app_nil_r.
  - destruct (Hrows n) as (row & Hrow & Hval); [left|].
    cbn [Binomial.loop]. unfold Binomial.step, item.
    rewrite Hrow. cbn [mbind outcome_bind]. rewrite Hval.
    rewrite IH by (intros n' Hn'; apply Hrows; by right).
    cbn [fst snd]. rewrite filter_cons. f_equal. f_equal.
    + by rewrite fmap_cons, <-app_assoc.
    + destruct (Binomial.passed (isprime n) (val n)) eqn:Hok; simpl.
      * done.
      * by rewrite <-app_assoc.
Qed.
End drivers.

Lemma quartic_table_rows (fuel : nat) (N_max : Z) :
  (Z.to_nat N_max < fuel)%nat →
  ∃ Ms, Quartic.compute_M_up_to_4 fuel N_max = Done Ms
        ∧ ∀ n, 0 ≤ n ≤ N_max → ∃ row, Ms !! n = Some row.
Proof.
  intros Hfuel.
  destruct (compute_M_spec 4 Quartic.scale quartic_scale fuel N_max Hfuel)
    as (Ms & Hrun & HMs).
  exists Ms. split; [done|]. intros n Hn. rewrite HMs, decide_True by done. eauto.
Qed.

Lemma binomial_table_rows (fuel : nat) (N_max : Z) :
  (Z.to_nat N_max < fuel)%nat →
  ∃ Ms, Binomial.compute_M_up_to_3 fuel N_max = Done Ms
        ∧ ∀ n, 0 ≤ n ≤ N_max → ∃ row, Ms !! n = Some row.
Proof.
  intros Hfuel.
  destruct (compute_M_spec 3 Binomial.scale binomial_scale fuel N_max Hfuel)
    as (Ms & Hrun & HMs).
  exists Ms. split; [done|]. intros n Hn. rewrite HMs, decide_True by done. eauto.
Qed.

(** C4.  For every [N_max ≥ 2], each Verification Driver evaluates every [n]
    from 2 to [N_max] inclusive and returns normally (no exception, a failure
    never aborts the scan): the printed lines are one per [n] of the range, in
    order; [n] is a pass precisely when ([n] is prime and the detector value
    is 0) or ([n] is not prime and the detector value is nonzero); and the
    failures list holds exactly the [n] in [2, N_max] that are not passes, in
    increasing order of [n]. *)
Theorem driver_scans_range (isprime : Z → bool) (fuel : nat) (N_max : Z) (verbose : bool) :
  2 ≤ N_max → (Z.to_nat N_max < fuel)%nat →
  (∃ Ms val failures,
     Quartic.compute_M_up_to_4 fuel N_max = Done Ms
     ∧ (∀ n, 2 ≤ n ≤ N_max →
          ∃ row, Ms !! n = Some row ∧ Quartic.quartic_L4 n row = Done (val n))
     ∧ Quartic.verify_range isprime fuel N_max verbose
       = Done (if verbose
               then (λ n, Quartic.Line n (isprime n) (val n)
                            (Quartic.ok (isprime n) (val n))) <$> range 2 (N_max + 1)
               else [],
               failures)
     ∧ failures
       = (λ n, (n, isprime n, val n))
           <$> filter (λ n, Quartic.ok (isprime n) (val n) = false) (range 2 (N_max + 1))
     ∧ StronglySorted Z.lt ((λ f, f.1.1) <$> failures))
  ∧ (∃ Ms val failures,
     Binomial.compute_M_up_to_3 fuel N_max = Done Ms
     ∧ (∀ n, 2 ≤ n ≤ N_max →
          ∃ row, Ms !! n = Some row ∧ Binomial.binomial_cubic_detector n row = val n)
     ∧ Binomial.main isprime fuel N_max
       = Done ((λ n, Binomial.Line n (isprime n) (val n)
                       (Binomial.passed (isprime n) (val n))) <$> range 2 (N_max + 1),
               failures)
     ∧ failures
       = filter (λ n, Binomial.passed (isprime n) (val n) = false) (range 2 (N_max + 1))
     ∧ StronglySorted Z.lt failures)
  ∧ (∀ p v, Quartic.ok p v = true ↔ (p = true ∧ v = 0) ∨ (p = false ∧ v ≠ 0))
  ∧ (∀ p v, Binomial.passed p v = true ↔ (p = true ∧ v = 0) ∨ (p = false ∧ v ≠ 0)).
Proof.
  intros HN Hfuel. split; [|split; [|split; [apply ok_iff|apply passed_iff]]].
  - destruct (quartic_table_rows fuel N_max Hfuel) as (Ms & Hrun & Hrows).
    set (val := λ n : Z,
           let row := default ∅ (Ms !! n) in
           (-4305 * n ^ 3 + 12915 * n ^ 2 - 8610 * n) * get row 1
           + (-2296 * n ^ 3 + 18368 * n ^ 2) * get row 2
           + (-3200 * n ^ 3 + 48640 * n ^ 2) * get row 3
           + 967680 * n * get row 4).
    assert (∀ n, 2 ≤ n ≤ N_max →
              ∃ row, Ms !! n = Some row ∧ Quartic.quartic_L4 n row = Done (val n))
      as Hval.
    { intros n Hn. destruct (Hrows n) as [row Hrow]; [lia|].
      exists row. split; [done|]. rewrite quartic_L4_poly. unfold val.
      by rewrite Hrow. }
    eexists Ms, val, _. split; [done|]. split; [done|].
    unfold Quartic.verify_range. rewrite Hrun. cbn [mbind outcome_bind].
    rewrite (quartic_loop_spec isprime Ms val)
      by (intros n Hn%elem_of_range; apply Hval; lia).
    cbn [fst snd app]. split; [reflexivity|]. split; [done|].
    rewrite failures_numbers. apply filter_sorted, range_sorted.
  - destruct (binomial_table_rows fuel N_max Hfuel) as (Ms & Hrun & Hrows).
    set (val := λ n : Z, Binomial.binomial_cubic_detector n (default ∅ (Ms !! n))).
    assert (∀ n, 2 ≤ n ≤ N_max →
              ∃ row, Ms !! n = Some row ∧ Binomial.binomial_cubic_detector n row = val n)
      as Hval.
    { intros n Hn. destruct (Hrows n) as [row Hrow]; [lia|].
      exists row. split; [done|]. unfold val. by rewrite Hrow. }
    eexists Ms, val, _. split; [done|]. split; [done|].
    unfold Binomial.main. rewrite Hrun. cbn [mbind outcome_bind].
    rewrite (binomial_loop_spec isprime Ms val)
      by (intros n Hn%elem_of_range; apply Hval; lia).
    cbn [fst snd app]. split; [reflexivity|]. split; [done|].
    apply filter_sorted, range_sorted.
Qed.

Lemma driver_scans_range_witness :
  (2 ≤ 10 ∧ (Z.to_nat 10 < 11)%nat)
  ∧ (∃ Ms val failures,
       Quartic.compute_M_up_to_4 11 10 = Done Ms
       ∧ (∀ n, 2 ≤ n ≤ 10 →
            ∃ row, Ms !! n = Some row ∧ Quartic.quartic_L4 n row = Done (val n))
       ∧ Quartic.verify_range Reference.trial_prime 11 10 true
         = Done (if true
                 then (λ n, Quartic.Line n (Reference.trial_prime n) (val n)
                              (Quartic.ok (Reference.trial_prime n) (val n)))
                        <$> range 2 (10 + 1)
                 else [],
                 failures)
       ∧ failures
         = (λ n, (n, Reference.trial_prime n, val n))
             <$> filter (λ n, Quartic.ok (Reference.trial_prime n) (val n) = false)
                   (range 2 (10 + 1))
       ∧ StronglySorted Z.lt ((λ f, f.1.1) <$> failures))
  ∧ (∃ Ms val failures,
       Binomial.compute_M_up_to_3 11 10 = Done Ms
       ∧ (∀ n, 2 ≤ n ≤ 10 →
            ∃ row, Ms !! n = Some row ∧ Binomial.binomial_cubic_detector n row = val n)
       ∧ Binomial.main Reference.trial_prime 11 10
         = Done ((λ n, Binomial.Line n (Reference.trial_prime n) (val n)
                         (Binomial.passed (Reference.trial_prime n) (val n)))
                   <$> range 2 (10 + 1),
                 failures)
       ∧ failures
         = filter (λ n, Binomial.passed (Reference.trial_prime n) (val n) = false)
             (range 2 (10 + 1))
       ∧ StronglySorted Z.lt failures)
  ∧ (∀ p v, Quartic.ok p v = true ↔ (p = true ∧ v = 0) ∨ (p = false ∧ v ≠ 0))
  ∧ (∀ p v, Binomial.passed p v = true ↔ (p = true ∧ v = 0) ∨ (p = false ∧ v ≠ 0)).
Proof.
  assert (2 ≤ 10) as HN by lia.
  assert (Z.to_nat 10 < 11)%nat as Hfuel by (vm_compute; lia).
  split; [done|]. exact (driver_scans_range Reference.trial_prime 11 10 true HN Hfuel).
Defined.

(** * Edge states of the recursion *)

Lemma range_split (a b c : Z) : a ≤ b ≤ c → range a c = range a b ++ range b c.
Proof.
  intros Habc. unfold range.
  replace (c - a) with ((b - a) + (c - b)) by lia.
  rewrite seqZ_app by lia. by replace (a + (b - a)) with b by lia.
Qed.

Lemma range_cons (a b : Z) : a < b → range a b = a :: range (a + 1) b.
Proof.
  intros Hab. unfold range. rewrite seqZ_cons by lia.
  by replace (Z.pred (b - a)) with (b - (a + 1)) by lia.
Qed.

Lemma range_nil (a b : Z) : b ≤ a → range a b = [].
Proof. intros Hab. unfold range. apply seqZ_nil. lia. Qed.

Section engine_edges.
Variable K : Z.
Variable scale : Z → Z → Z.

Lemma loop_i_break_gen call (rem d : Z) (is_ V : list Z) :
d + 1 > K → Engine.loop_i K scale call rem d is_ V = Done V.
Proof. intros Hd. destruct is_; simpl; [done|]. by rewrite decide_True. Qed.

(** A negative candidate part has a negative quotient: its multiplicity loop
  is empty. *)
Lemma loop_i_skip_negative call (rem d : Z) (rest V : list Z) :
0 < rem → d + 1 ≤ K →
∀ is_, Forall (λ i, i < 0) is_ →
  Engine.loop_i K scale call rem d (is_ ++ rest) V
  = Engine.loop_i K scale call rem d rest V.
Proof.
intros Hrem Hd. induction is_ as [|i is_ IH]; intros Hneg; [done|].
apply Forall_cons in Hneg as [Hi Hneg].
cbn [app Engine.loop_i]. rewrite decide_False by lia. rewrite decide_False by lia.
assert (rem `div` i < 0) as Hq.
{ pose proof (Z.div_mod rem i ltac:(lia)).
  pose proof (Z.mod_neg_bound rem i Hi). nia. }
rewrite (range_nil 1) by lia. cbn [Engine.loop_m mbind outcome_bind]. by apply IH.
Qed.

Lemma rec_zero_division (fuel : nat) (rem lo d : Z) :
1 ≤ rem → lo ≤ 0 → d + 1 ≤ K →
Engine.rec K scale (S fuel) rem lo d = ZeroDivisionError.
Proof.
intros Hrem Hlo Hd. cbn [Engine.rec]. unfold Engine.rec_body.
rewrite decide_False by lia.
rewrite (range_split lo 0 (rem + 1)) by lia.
rewrite loop_i_skip_negative; [|lia|done|].
- rewrite (range_cons 0) by lia. cbn [Engine.loop_i].
  rewrite decide_False by lia. by rewrite decide_True.
- apply Forall_forall. intros i Hi%elem_of_range. lia.
Qed.

Lemma rec_dead (fuel : nat) (rem lo d : Z) :
rem ≠ 0 → rem < lo ∨ K ≤ d →
Engine.rec K scale (S fuel) rem lo d = Done (replicate (Z.to_nat (K + 1)) 0).
Proof.
intros Hrem Hdead. cbn [Engine.rec]. unfold Engine.rec_body.
rewrite decide_False by done. destruct Hdead as [Hlo|Hd].
- by rewrite range_nil by lia.
- apply loop_i_break_gen. lia.
Qed.

(** The recursion depth is bounded by the number of distinct sizes still
  allowed, whatever [remaining] is. *)
Lemma rec_total_depth : ∀ (fuel : nat) (rem lo d : Z),
0 ≤ rem → 1 ≤ lo → (Z.to_nat (K - d) < fuel)%nat →
∃ V, Engine.rec K scale fuel rem lo d = Done V.
Proof.
induction fuel as [|fuel IH]; intros rem lo d Hrem Hlo Hfuel; [lia|].
cbn [Engine.rec]. unfold Engine.rec_body. case_decide; [by eexists|].
destruct (decide (d + 1 > K)) as [Hd|Hd].
{ rewrite loop_i_break_gen by done. by eexists. }
destruct (loop_i_done K scale (Engine.rec K scale fuel) rem d (range lo (rem + 1))
            (replicate (Z.to_nat (K + 1)) 0)) as (V' & Hrun & _).
- intros i Hi%elem_of_range. lia.
- intros i m Hi Hm.
  destruct (child_state rem lo i m) as [? ?]; [done..|].
  apply IH; lia.
- by exists V'.
Qed.

Lemma rec_fuel_depth : ∀ (f1 f2 : nat) (rem lo d : Z),
0 ≤ rem → 1 ≤ lo → (Z.to_nat (K - d) < f1)%nat → (Z.to_nat (K - d) < f2)%nat →
Engine.rec K scale f1 rem lo d = Engine.rec K scale f2 rem lo d.
Proof.
induction f1 as [|f1 IH]; intros [|f2] rem lo d Hrem Hlo H1 H2; try lia.
cbn [Engine.rec]. apply rec_body_local; [done..|].
intros r l d' Hr Hl -> Hd'. apply IH; lia.
Qed.

Lemma rec_depth_enough (fuel : nat) (rem lo d : Z) :
0 ≤ rem → 1 ≤ lo → (Z.to_nat (K - d) < fuel)%nat →
Engine.rec K scale fuel rem lo d = Engine.rec K scale (S (Z.to_nat rem)) rem lo d.
Proof.
intros Hrem Hlo Hfuel.
rewrite (rec_fuel_depth fuel (fuel + S (Z.to_nat rem))) by lia.
apply rec_fuel; lia.
Qed.
End engine_edges.

(** * The recursion: errors, pruning, depth and low entries *)

(** X1.  A state with [min_part ≤ 0] and [remaining ≥ 1] that may still
    choose a new distinct size makes [rec] raise [ZeroDivisionError]: the
    negative candidate parts have an empty multiplicity loop and the
    candidate 0 is used as a divisor.  Both scripts. *)
Theorem rec_raises_on_nonpositive_min_part (fuel : nat)
    (remaining min_part distinct_used : Z) :
  1 ≤ remaining → min_part ≤ 0 →
  (distinct_used + 1 ≤ 3 →
     Binomial.rec (S fuel) remaining min_part distinct_used = ZeroDivisionError)
  ∧ (distinct_used + 1 ≤ 4 →
     Quartic.rec (S fuel) remaining min_part distinct_used = ZeroDivisionError).
Proof.
  intros Hrem Hlo. split; intros Hd; by apply rec_zero_division.
Qed.

Lemma rec_raises_on_nonpositive_min_part_witness :
  (1 ≤ 5 ∧ -2 ≤ 0)
  ∧ Binomial.rec 1 5 (-2) 0 = ZeroDivisionError
  ∧ Quartic.rec 1 5 (-2) 0 = ZeroDivisionError.
Proof.
  assert (1 ≤ 5) as Hrem by lia.
  assert (-2 ≤ 0) as Hlo by lia.
  destruct (rec_raises_on_nonpositive_min_part 0 5 (-2) 0 Hrem Hlo) as [H3 H4].
  split; [done|]. split; [apply H3; lia|apply H4; lia].
Defined.

(** X2.  Pruning: a state with [remaining ≠ 0] that cannot be completed,
    because no part value fits ([remaining < min_part]) or because the cap on
    distinct sizes is reached ([distinct_used ≥ K]), returns the all-zero
    vector at once, without any recursive call.  Both scripts. *)
Theorem rec_prunes (fuel : nat) (remaining min_part distinct_used : Z) :
  remaining ≠ 0 →
  (remaining < min_part ∨ 3 ≤ distinct_used →
     Binomial.rec (S fuel) remaining min_part distinct_used = Done [0; 0; 0; 0])
  ∧ (remaining < min_part ∨ 4 ≤ distinct_used →
     Quartic.rec (S fuel) remaining min_part distinct_used = Done [0; 0; 0; 0; 0]).
Proof.
  intros Hrem. split; intros Hdead.
  - by apply (rec_dead 3 Binomial.scale).
  - by apply (rec_dead 4 Quartic.scale).
Qed.

Lemma rec_prunes_witness :
  1000 ≠ 0
  ∧ Binomial.rec 1 1000 1 3 = Done [0; 0; 0; 0]
  ∧ Quartic.rec 1 1000 1001 0 = Done [0; 0; 0; 0; 0].
Proof.
  assert (1000 ≠ 0) as Hrem by lia.
  split; [done|]. split.
  - apply (rec_prunes 0 1000 1 3 Hrem). right. lia.
  - apply (rec_prunes 0 1000 1001 0 Hrem). left. lia.
Defined.

(** X3.  The recursion depth does not depend on [remaining]: from a state
    with [remaining ≥ 0] and [min_part ≥ 1], a budget of
    [K - distinct_used + 1] nested calls (at least one) already yields the
    result, and every larger budget yields the same one.  In particular 4
    (cubic) and 5 (quartic) nested calls serve every state with
    [distinct_used ≥ 0].  Both scripts. *)
Theorem rec_depth_bounded (remaining min_part distinct_used : Z) :
  0 ≤ remaining → 1 ≤ min_part →
  (∃ V, ∀ fuel, (Z.to_nat (3 - distinct_used) < fuel)%nat →
          Binomial.rec fuel remaining min_part distinct_used = Done V)
  ∧ (∃ V, ∀ fuel, (Z.to_nat (4 - distinct_used) < fuel)%nat →
          Quartic.rec fuel remaining min_part distinct_used = Done V).
Proof.
  intros Hrem Hlo. split.
  - destruct (rec_total 3 Binomial.scale (S (Z.to_nat remaining)) remaining min_part
                distinct_used) as (V & HV & _); [lia..|].
    exists V. intros fuel Hfuel. rewrite <-HV. by apply rec_depth_enough.
  - destruct (rec_total 4 Quartic.scale (S (Z.to_nat remaining)) remaining min_part
                distinct_used) as (V & HV & _); [lia..|].
    exists V. intros fuel Hfuel. rewrite <-HV. by apply rec_depth_enough.
Qed.

Lemma rec_depth_bounded_witness :
  (0 ≤ 1000 ∧ 1 ≤ 1)
  ∧ (∃ V, ∀ fuel, (Z.to_nat (3 - 0) < fuel)%nat → Binomial.rec fuel 1000 1 0 = Done V)
  ∧ (∃ V, ∀ fuel, (Z.to_nat (4 - 0) < fuel)%nat → Quartic.rec fuel 1000 1 0 = Done V).
Proof.
  assert (0 ≤ 1000) as Hrem by lia.
  assert (1 ≤ 1) as Hlo by lia.
  split; [done|]. exact (rec_depth_bounded 1000 1 0 Hrem Hlo).
Defined.

(** X4.  A state that has already chosen [distinct_used] sizes contributes
    nothing to the counts of fewer sizes: in the vector returned by [rec],
    entry 0 is 0, every entry [k < distinct_used] is 0, and so is entry
    [distinct_used] itself when [remaining > 0].  Both scripts. *)
Theorem rec_low_entries_zero (remaining min_part distinct_used k : Z) :
  0 ≤ remaining → 1 ≤ min_part → 0 ≤ distinct_used → 0 ≤ k →
  k = 0 ∨ k < distinct_used ∨ (k = distinct_used ∧ 0 < remaining) →
  (k ≤ 3 →
     ∃ V, Binomial.rec (S (Z.to_nat remaining)) remaining min_part distinct_used = Done V
          ∧ V !!! Z.to_nat k = 0)
  ∧ (k ≤ 4 →
     ∃ V, Quartic.rec (S (Z.to_nat remaining)) remaining min_part distinct_used = Done V
          ∧ V !!! Z.to_nat k = 0).
Proof.
  intros Hrem Hlo Hd Hk Hlow.
  assert (∀ Kn, (Z.to_nat k ≤ Kn)%nat →
            Reference.stat_vector Kn (Z.to_nat distinct_used) (Z.to_nat min_part)
              (Z.to_nat remaining) !!! Z.to_nat k = 0) as Hzero.
  { intros Kn HkK. rewrite lookup_stat_vector_any by done.
    case_decide; [|done].
    destruct (decide (0 < remaining)).
    - apply completions_small; lia.
    - assert (Z.to_nat remaining = 0%nat) as -> by lia.
      rewrite completions_0. rewrite decide_False; [done|lia]. }
  split; intros HkK.
  - pose proof (rec_spec 3 Binomial.scale binomial_scale (S (Z.to_nat remaining))
                  (Z.to_nat remaining) (Z.to_nat min_part) (Z.to_nat distinct_used)
                  ltac:(lia) ltac:(lia)) as Hrec.
    rewrite !Z2Nat.id in Hrec by lia.
    eexists. split; [exact Hrec|]. apply Hzero. lia.
  - pose proof (rec_spec 4 Quartic.scale quartic_scale (S (Z.to_nat remaining))
                  (Z.to_nat remaining) (Z.to_nat min_part) (Z.to_nat distinct_used)
                  ltac:(lia) ltac:(lia)) as Hrec.
    rewrite !Z2Nat.id in Hrec by lia.
    eexists. split; [exact Hrec|]. apply Hzero. lia.
Qed.

Lemma rec_low_entries_zero_witness :
  (0 ≤ 6 ∧ 1 ≤ 2 ∧ 0 ≤ 2 ∧ 0 ≤ 2 ∧ (2 = 0 ∨ 2 < 2 ∨ (2 = 2 ∧ 0 < 6)))
  ∧ (∃ V, Binomial.rec (S (Z.to_nat 6)) 6 2 2 = Done V ∧ V !!! Z.to_nat 2 = 0)
  ∧ (∃ V, Quartic.rec (S (Z.to_nat 6)) 6 2 2 = Done V ∧ V !!! Z.to_nat 2 = 0).
Proof.
  assert (0 ≤ 6) as Hrem by lia.
  assert (1 ≤ 2) as Hlo by lia.
  assert (0 ≤ 2) as Hd by lia.
  assert (2 = 0 ∨ 2 < 2 ∨ (2 = 2 ∧ 0 < 6)) as Hlow by (right; right; lia).
  destruct (rec_low_entries_zero 6 2 2 2 Hrem Hlo Hd Hd Hlow) as [H3 H4].
  split; [done|]. split; [apply H3; lia|apply H4; lia].
Defined.

(** * The first statistic is the divisor sum *)

Section divisor_sum.
Import Reference.

Lemma completions_one_more (lo r : nat) :
(1 ≤ lo)%nat → completions 1 lo r 1 = if decide (r = 0%nat) then 1 else 0.
Proof.
intros Hlo. destruct (decide (r = 0%nat)) as [->|Hr].
- by rewrite completions_0.
- apply completions_small; lia.
Qed.

(** With one distinct size, the partitions of [n] are [i] repeated [n / i]
  times, one for each divisor [i] of [n]. *)
Lemma M_1_divisors (n : nat) :
M 1 n = sumZ ((λ i, Z.of_nat (Nat.div n i))
                <$> filter (λ i, Nat.modulo n i = 0%nat) (seq 1 n)).
Proof.
rewrite M_completions, sumZ_filter.
destruct (decide (n = 0%nat)) as [->|Hn]; [by rewrite completions_0|].
rewrite completions_step by lia.
replace (S n - 1)%nat with n by lia.
apply sumZ_ext. intros i Hi%elem_of_seq.
rewrite (sumZ_ext _ (λ m, if decide (Nat.div n i = m)
                          then (if decide (Nat.modulo n i = 0%nat)
                                then Z.of_nat (Nat.div n i) else 0)
                          else 0)).
- rewrite sumZ_indicator by apply NoDup_seq.
  rewrite decide_True; [done|]. apply elem_of_seq.
  assert (1 ≤ Nat.div n i)%nat; [|lia].
  apply Nat.div_le_lower_bound; lia.
- intros m Hm%elem_of_seq. rewrite completions_one_more by lia.
  pose proof (Nat.div_mod_eq n i) as Hdm.
  pose proof (Nat.mod_upper_bound n i ltac:(lia)) as Hmod.
  pose proof (Nat.Div0.mul_div_le n i) as Hle.
  destruct (decide (Nat.div n i = m)) as [Heq|Hne].
  + subst m. destruct (decide (Nat.modulo n i = 0%nat)) as [Hz|Hnz].
    * rewrite decide_True by nia. lia.
    * rewrite decide_False by nia. lia.
  + rewrite decide_False; [lia|]. nia.
Qed.

Lemma M_1_divisors_Z (n : nat) :
M 1 n = sumZ ((λ i, Z.of_nat n `div` i)
                <$> filter (λ i, Z.of_nat n `mod` i = 0) (range 1 (Z.of_nat n + 1))).
Proof.
rewrite M_1_divisors, !sumZ_filter.
replace (Z.of_nat n + 1) with (Z.of_nat (S n)) by lia.
pose proof (range_of_nat 1 (S n)) as Hr.
change (Z.of_nat 1) with 1 in Hr. rewrite Hr. clear Hr.
replace (S n - 1)%nat with n by lia.
rewrite <-list_fmap_compose. apply sumZ_ext. intros i Hi%elem_of_seq. simpl.
rewrite <-Nat2Z.inj_mod, <-Nat2Z.inj_div.
destruct (decide (Nat.modulo n i = 0%nat)) as [Hz|Hnz].
- rewrite decide_True; [done|lia].
- rewrite decide_False; [done|lia].
Qed.
End divisor_sum.

(** X5.  The first statistic is the divisor sum: for every [n] in
    [0, N_MAX], the entry [M_1(n)] of the Engine's table is the sum of
    [n // i] over the divisors [i] of [n] in [1, n].  Both scripts. *)
Theorem M1_is_divisor_sum (fuel : nat) (N_MAX n : Z) :
  0 ≤ n ≤ N_MAX → (Z.to_nat N_MAX < fuel)%nat →
  (∃ Ms row, Binomial.compute_M_up_to_3 fuel N_MAX = Done Ms ∧ Ms !! n = Some row
             ∧ row !! 1 = Some (Reference.sumZ ((λ i, n `div` i)
                                  <$> filter (λ i, n `mod` i = 0) (range 1 (n + 1)))))
  ∧ (∃ Ms row, Quartic.compute_M_up_to_4 fuel N_MAX = Done Ms ∧ Ms !! n = Some row
               ∧ row !! 1 = Some (Reference.sumZ ((λ i, n `div` i)
                                    <$> filter (λ i, n `mod` i = 0) (range 1 (n + 1))))).
Proof.
  intros Hn Hfuel.
  assert (Reference.M (Z.to_nat 1) (Z.to_nat n)
          = Reference.sumZ ((λ i, n `div` i)
              <$> filter (λ i, n `mod` i = 0) (range 1 (n + 1)))) as HM.
  { pose proof (M_1_divisors_Z (Z.to_nat n)) as HM.
    by rewrite Z2Nat.id in HM by lia. }
  split.
  - destruct (binomial_table fuel N_MAX n 1) as (Ms & row & V & ? & ? & _ & Hrow & HV);
      [done|done|lia|].
    exists Ms, row. by rewrite Hrow, HV, HM.
  - destruct (quartic_table fuel N_MAX n 1) as (Ms & row & V & ? & ? & _ & Hrow & HV);
      [done|done|lia|].
    exists Ms, row. by rewrite Hrow, HV, HM.
Qed.

Lemma M1_is_divisor_sum_witness :
  (0 ≤ 6 ≤ 6 ∧ (Z.to_nat 6 < 7)%nat)
  ∧ (∃ Ms row, Binomial.compute_M_up_to_3 7 6 = Done Ms ∧ Ms !! 6 = Some row
               ∧ row !! 1 = Some (Reference.sumZ ((λ i, 6 `div` i)
                                    <$> filter (λ i, 6 `mod` i = 0) (range 1 (6 + 1)))))
  ∧ (∃ Ms row, Quartic.compute_M_up_to_4 7 6 = Done Ms ∧ Ms !! 6 = Some row
               ∧ row !! 1 = Some (Reference.sumZ ((λ i, 6 `div` i)
                                    <$> filter (λ i, 6 `mod` i = 0) (range 1 (6 + 1))))).
Proof.
  assert (0 ≤ 6 ≤ 6) as Hn by lia.
  assert (Z.to_nat 6 < 7)%nat as Hfuel by (vm_compute; lia).
  split; [done|]. exact (M1_is_divisor_sum 7 6 6 Hn Hfuel).
Defined.

(** * The table and the evaluators on it *)

Section table_shape_facts.
Variable Kn : nat.
Variable scale : Z → Z → Z.
Hypothesis Hscale : ∀ m c, 1 ≤ m → scale m c = m * c.
Local Abbreviation K := (Z.of_nat Kn).

Lemma table_keys (fuel : nat) (n_max : Z) :
(Z.to_nat n_max < fuel)%nat →
∃ Ms, Engine.compute_M_up_to K scale fuel n_max = Done Ms
      ∧ (∀ n, is_Some (Ms !! n) ↔ 0 ≤ n ≤ n_max)
      ∧ (∀ n row k, Ms !! n = Some row → (is_Some (row !! k) ↔ 1 ≤ k ≤ K)).
Proof.
intros Hfuel.
destruct (compute_M_spec Kn scale Hscale fuel n_max Hfuel) as (Ms & Hrun & HMs).
exists Ms. split; [done|]. split.
- intros n. rewrite HMs. destruct (decide (0 ≤ n ≤ n_max)) as [Hn|Hn].
  + split; [done|]. intros _. by eexists.
  + split; [|done]. by intros [? ?].
- intros n row k Hrow. rewrite HMs in Hrow. case_decide; [|done].
  injection Hrow as <-. rewrite row_of_lookup.
  destruct (decide (1 ≤ k ≤ K)) as [Hk|Hk].
  + split; [done|]. intros _. by eexists.
  + split; [|done]. by intros [? ?].
Qed.
End table_shape_facts.

(** X6.  The table returned by [compute_M_up_to_3] ([compute_M_up_to_4])
    has a row exactly for the keys [0..n_max], and each row has exactly the
    keys [1..3] ([1..4]); for [n_max < 0] the table is empty, and looking up
    any other [n] is a [KeyError]. *)
Theorem table_shape (fuel : nat) (n_max : Z) :
  (Z.to_nat n_max < fuel)%nat →
  (∃ Ms, Binomial.compute_M_up_to_3 fuel n_max = Done Ms
         ∧ (∀ n, is_Some (Ms !! n) ↔ 0 ≤ n ≤ n_max)
         ∧ (∀ n, ¬ (0 ≤ n ≤ n_max) → item Ms n = KeyError)
         ∧ (∀ n row k, Ms !! n = Some row → (is_Some (row !! k) ↔ 1 ≤ k ≤ 3)))
  ∧ (∃ Ms, Quartic.compute_M_up_to_4 fuel n_max = Done Ms
           ∧ (∀ n, is_Some (Ms !! n) ↔ 0 ≤ n ≤ n_max)
           ∧ (∀ n, ¬ (0 ≤ n ≤ n_max) → item Ms n = KeyError)
           ∧ (∀ n row k, Ms !! n = Some row → (is_Some (row !! k) ↔ 1 ≤ k ≤ 4))).
Proof.
  intros Hfuel. split.
  - destruct (table_keys 3 Binomial.scale binomial_scale fuel n_max Hfuel)
      as (Ms & Hrun & Hkeys & Hrows).
    exists Ms. split; [done|]. split; [done|]. split; [|done].
    intros n Hn. unfold item. destruct (Ms !! n) eqn:Hlook; [|done].
    exfalso. apply Hn, Hkeys. by rewrite Hlook.
  - destruct (table_keys 4 Quartic.scale quartic_scale fuel n_max Hfuel)
      as (Ms & Hrun & Hkeys & Hrows).
    exists Ms. split; [done|]. split; [done|]. split; [|done].
    intros n Hn. unfold item. destruct (Ms !! n) eqn:Hlook; [|done].
    exfalso. apply Hn, Hkeys. by rewrite Hlook.
Qed.

Lemma table_shape_witness :
  (Z.to_nat 3 < 4)%nat
  ∧ (∃ Ms, Binomial.compute_M_up_to_3 4 3 = Done Ms
           ∧ (∀ n, is_Some (Ms !! n) ↔ 0 ≤ n ≤ 3)
           ∧ (∀ n, ¬ (0 ≤ n ≤ 3) → item Ms n = KeyError)
           ∧ (∀ n row k, Ms !! n = Some row → (is_Some (row !! k) ↔ 1 ≤ k ≤ 3)))
  ∧ (∃ Ms, Quartic.compute_M_up_to_4 4 3 = Done Ms
           ∧ (∀ n, is_Some (Ms !! n) ↔ 0 ≤ n ≤ 3)
           ∧ (∀ n, ¬ (0 ≤ n ≤ 3) → item Ms n = KeyError)
           ∧ (∀ n row k, Ms !! n = Some row → (is_Some (row !! k) ↔ 1 ≤ k ≤ 4))).
Proof.
  assert (Z.to_nat 3 < 4)%nat as Hfuel by (vm_compute; lia).
  split; [done|]. exact (table_shape 4 3 Hfuel).
Defined.

Lemma binomial_rows_L3 (fuel : nat) (N_MAX : Z) :
  (Z.to_nat N_MAX < fuel)%nat →
  ∃ Ms, Binomial.compute_M_up_to_3 fuel N_MAX = Done Ms
        ∧ ∀ n, 0 ≤ n ≤ N_MAX →
            ∃ row, Ms !! n = Some row
                   ∧ Binomial.binomial_cubic_detector n row = Reference.L3 n.
Proof.
  intros Hfuel.
  destruct (compute_M_spec 3 Binomial.scale binomial_scale fuel N_MAX Hfuel)
    as (Ms & Hrun & HMs).
  exists Ms. split; [done|]. intros n Hn.
  destruct (table_row 3 Binomial.scale binomial_scale fuel N_MAX n Hn Hfuel)
    as (Ms' & row & Hrun' & Hrow & Hget).
  assert (Ms' = Ms) as -> by congruence.
  exists row. split; [done|].
  unfold Binomial.binomial_cubic_detector, Reference.L3. case_decide as Hlt.
  - assert (n = 0 ∨ n = 1 ∨ n = 2) as Hcases by lia.
    destruct Hcases as [Hn0|[Hn1|Hn2]]; subst n; by vm_compute.
  - cbn zeta. rewrite (Hget 1), (Hget 2), (Hget 3) by lia. done.
Qed.

Lemma quartic_rows_L4 (fuel : nat) (N_MAX : Z) :
  (Z.to_nat N_MAX < fuel)%nat →
  ∃ Ms, Quartic.compute_M_up_to_4 fuel N_MAX = Done Ms
        ∧ ∀ n, 0 ≤ n ≤ N_MAX →
            ∃ row, Ms !! n = Some row ∧ Quartic.quartic_L4 n row = Done (Reference.L4 n).
Proof.
  intros Hfuel.
  destruct (compute_M_spec 4 Quartic.scale quartic_scale fuel N_MAX Hfuel)
    as (Ms & Hrun & HMs).
  exists Ms. split; [done|]. intros n Hn.
  destruct (table_row 4 Quartic.scale quartic_scale fuel N_MAX n Hn Hfuel)
    as (Ms' & row & Hrun' & Hrow & Hget).
  assert (Ms' = Ms) as -> by congruence.
  exists row. split; [done|].
  rewrite quartic_L4_poly. unfold Reference.L4.
  rewrite (Hget 1), (Hget 2), (Hget 3), (Hget 4) by lia. done.
Qed.

(** X7.  On the Engine's own table the guard [if n < 3: return 0] of
    [binomial_cubic_detector] never changes the value: for every [n] in
    [0, N_MAX], the detector applied to row [n] equals
    [(n-1)(n-2)(M_1 + M_2) - 5(n-1) M_2 - 80 M_3] on the reference statistics
    of [n], also for [n = 0, 1, 2], where that expression is 0. *)
Theorem cubic_detector_on_table (fuel : nat) (N_MAX n : Z) :
  0 ≤ n ≤ N_MAX → (Z.to_nat N_MAX < fuel)%nat →
  ∃ Ms row,
    Binomial.compute_M_up_to_3 fuel N_MAX = Done Ms ∧ Ms !! n = Some row
    ∧ Binomial.binomial_cubic_detector n row = Reference.L3 n.
Proof.
  intros Hn Hfuel.
  destruct (binomial_rows_L3 fuel N_MAX Hfuel) as (Ms & Hrun & Hrows).
  destruct (Hrows n Hn) as (row & Hrow & Hval).
  by exists Ms, row.
Qed.

Lemma cubic_detector_on_table_witness :
  (0 ≤ 2 ≤ 8 ∧ (Z.to_nat 8 < 9)%nat)
  ∧ ∃ Ms row,
      Binomial.compute_M_up_to_3 9 8 = Done Ms ∧ Ms !! 2 = Some row
      ∧ Binomial.binomial_cubic_detector 2 row = Reference.L3 2.
Proof.
  assert (0 ≤ 2 ≤ 8) as Hn by lia.
  assert (Z.to_nat 8 < 9)%nat as Hfuel by (vm_compute; lia).
  split; [done|]. exact (cubic_detector_on_table 9 8 2 Hn Hfuel).
Defined.

(** X8.  Engine and Evaluator compose: for every [n] in [0, N_MAX],
    [quartic_L4] applied to row [n] of the table of [compute_M_up_to_4]
    returns the quartic combination
    [(-4305n^3+12915n^2-8610n) M_1 + (-2296n^3+18368n^2) M_2
     + (-3200n^3+48640n^2) M_3 + 967680n M_4] of the reference statistics of
    [n]. *)
Theorem quartic_L4_on_table (fuel : nat) (N_MAX n : Z) :
  0 ≤ n ≤ N_MAX → (Z.to_nat N_MAX < fuel)%nat →
  ∃ Ms row,
    Quartic.compute_M_up_to_4 fuel N_MAX = Done Ms ∧ Ms !! n = Some row
    ∧ Quartic.quartic_L4 n row = Done (Reference.L4 n).
Proof.
  intros Hn Hfuel.
  destruct (quartic_rows_L4 fuel N_MAX Hfuel) as (Ms & Hrun & Hrows).
  destruct (Hrows n Hn) as (row & Hrow & Hval).
  by exists Ms, row.
Qed.

Lemma quartic_L4_on_table_witness :
  (0 ≤ 7 ≤ 8 ∧ (Z.to_nat 8 < 9)%nat)
  ∧ ∃ Ms row,
      Quartic.compute_M_up_to_4 9 8 = Done Ms ∧ Ms !! 7 = Some row
      ∧ Quartic.quartic_L4 7 row = Done (Reference.L4 7).
Proof.
  assert (0 ≤ 7 ≤ 8) as Hn by lia.
  assert (Z.to_nat 8 < 9)%nat as Hfuel by (vm_compute; lia).
  split; [done|]. exact (quartic_L4_on_table 9 8 7 Hn Hfuel).
Defined.

(** * The drivers in closed form *)

(** The result of [verify_range] in closed form. *)
Lemma quartic_run (isprime : Z → bool) (fuel : nat) (N_max : Z) (verbose : bool) :
  (Z.to_nat N_max < fuel)%nat →
  Quartic.verify_range isprime fuel N_max verbose
  = Done (if verbose
          then (λ n, Quartic.Line n (isprime n) (Reference.L4 n)
                       (Quartic.ok (isprime n) (Reference.L4 n))) <$> range 2 (N_max + 1)
          else [],
          (λ n, (n, isprime n, Reference.L4 n))
            <$> filter (λ n, Quartic.ok (isprime n) (Reference.L4 n) = false)
                  (range 2 (N_max + 1))).
Proof.
  intros Hfuel.
  destruct (quartic_rows_L4 fuel N_max Hfuel) as (Ms & Hrun & Hrows).
  unfold Quartic.verify_range. rewrite Hrun. cbn [mbind outcome_bind].
  rewrite (quartic_loop_spec isprime Ms Reference.L4)
    by (intros n Hn%elem_of_range; apply Hrows; lia).
  done.
Qed.

(** The result of the cubic script's loop in closed form. *)
Lemma binomial_run (isprime : Z → bool) (fuel : nat) (N_MAX : Z) :
  (Z.to_nat N_MAX < fuel)%nat →
  Binomial.main isprime fuel N_MAX
  = Done ((λ n, Binomial.Line n (isprime n) (Reference.L3 n)
                  (Binomial.passed (isprime n) (Reference.L3 n))) <$> range 2 (N_MAX + 1),
          filter (λ n, Binomial.passed (isprime n) (Reference.L3 n) = false)
            (range 2 (N_MAX + 1))).
Proof.
  intros Hfuel.
  destruct (binomial_rows_L3 fuel N_MAX Hfuel) as (Ms & Hrun & Hrows).
  unfold Binomial.main. rewrite Hrun. cbn [mbind outcome_bind].
  rewrite (binomial_loop_spec isprime Ms Reference.L3)
    by (intros n Hn%elem_of_range; apply Hrows; lia).
  done.
Qed.

Lemma filter_nil_iff {A} (P : A → Prop) `{∀ x, Decision (P x)} (l : list A) :
  filter P l = [] ↔ ∀ x, x ∈ l → ¬ P x.
Proof.
  split.
  - intros Hnil x Hx HP. by apply (filter_nil_not_elem_of P l x).
  - induction l as [|x l IH]; intros Hall; [done|].
    rewrite filter_cons_False by (apply Hall; left).
    apply IH. intros y Hy. apply Hall. by right.
Qed.

Lemma ok_false_iff (p : bool) (v : Z) :
  Quartic.ok p v = false ↔ ¬ (p = true ↔ v = 0).
Proof.
  unfold Quartic.ok.
  destruct p; simpl; repeat case_bool_decide; intuition (congruence || lia).
Qed.

Lemma passed_false_iff (p : bool) (v : Z) :
  Binomial.passed p v = false ↔ ¬ (p = true ↔ v = 0).
Proof.
  unfold Binomial.passed.
  destruct p; simpl; repeat case_bool_decide; intuition (congruence || lia).
Qed.

Lemma filter_all {A} (Q : A → Prop) `{∀ x, Decision (Q x)} (l : list A) :
  (∀ x, x ∈ l → Q x) → filter Q l = l.
Proof.
  induction l as [|x l IH]; intros Hall; [done|].
  rewrite filter_cons_True by (apply Hall; left).
  f_equal. apply IH. intros y Hy. apply Hall. by right.
Qed.

(** Restricting the filtered range [a..N'] to the numbers up to [N] gives
    the filtered range [a..N]. *)
Lemma filter_range_prefix (P : Z → Prop) `{∀ x, Decision (P x)} (a N N' : Z) :
  N ≤ N' →
  filter (λ n, n ≤ N) (filter P (range a (N' + 1))) = filter P (range a (N + 1)).
Proof.
  intros HN. destruct (decide (a ≤ N + 1)) as [Ha|Ha].
  - rewrite (range_split a (N + 1) (N' + 1)) by lia.
    rewrite !filter_app.
    rewrite (filter_all _ (filter P (range a (N + 1)))).
    + rewrite (proj2 (filter_nil_iff _ (filter P (range (N + 1) (N' + 1))))).
      * by rewrite app_nil_r.
      * intros n [_ Hn%elem_of_range]%list_elem_of_filter. lia.
    + intros n [_ Hn%elem_of_range]%list_elem_of_filter. lia.
  - rewrite (range_nil a (N + 1)) by lia. rewrite filter_nil.
    apply filter_nil_iff.
    intros n [_ Hn%elem_of_range]%list_elem_of_filter. lia.
Qed.

Lemma filter_failures_prefix (p : Z → bool) (v : Z → Z) (N : Z) (l : list Z) :
  filter (λ f : Z * bool * Z, f.1.1 ≤ N) ((λ n, (n, p n, v n)) <$> l)
  = (λ n, (n, p n, v n)) <$> filter (λ n, n ≤ N) l.
Proof.
  induction l as [|n l IH]; [done|].
  rewrite fmap_cons, !filter_cons. cbn [fst]. rewrite IH.
  by destruct (decide (n ≤ N)).
Qed.

Lemma quartic_loop_ext (p1 p2 : Z → bool) (verbose : bool) (Ms : gmap Z (gmap Z Z)) :
  ∀ (ns : list Z) st,
    (∀ n, n ∈ ns → p1 n = p2 n) →
    Quartic.loop p1 verbose Ms ns st = Quartic.loop p2 verbose Ms ns st.
Proof.
  induction ns as [|n ns IH]; intros st Hagree; [done|].
  cbn [Quartic.loop].
  assert (Quartic.step p1 verbose Ms st n = Quartic.step p2 verbose Ms st n) as ->.
  { unfold Quartic.step. by rewrite (Hagree n) by left. }
  destruct (Quartic.step p2 verbose Ms st n) as [st'| | |]; try done.
  cbn [mbind outcome_bind]. apply IH. intros n' Hn'. apply Hagree. by right.
Qed.

Lemma binomial_loop_ext (p1 p2 : Z → bool) (Ms : gmap Z (gmap Z Z)) :
  ∀ (ns : list Z) st,
    (∀ n, n ∈ ns → p1 n = p2 n) →
    Binomial.loop p1 Ms ns st = Binomial.loop p2 Ms ns st.
Proof.
  induction ns as [|n ns IH]; intros st Hagree; [done|].
  cbn [Binomial.loop].
  assert (Binomial.step p1 Ms st n = Binomial.step p2 Ms st n) as ->.
  { unfold Binomial.step. by rewrite (Hagree n) by left. }
  destruct (Binomial.step p2 Ms st n) as [st'| | |]; try done.
  cbn [mbind outcome_bind]. apply IH. intros n' Hn'. apply Hagree. by right.
Qed.

(** * The reports of the scripts *)

(** X9.  What the quartic script's verdict means.  The main entry point
    prints "No counterexamples found" exactly when, for every [n] in
    [2, N_MAX], the oracle says prime if and only if the quartic combination
    of the reference statistics of [n] is 0; otherwise the printed rows are
    exactly the triples [(n, is_prime, L4(n))] of the [n] in the range where
    the two disagree. *)
Theorem quartic_summary_meaning (isprime : Z → bool) (fuel : nat) (N_MAX : Z) :
  (Z.to_nat N_MAX < fuel)%nat →
  ∃ out s,
    Quartic.main_entry isprime fuel N_MAX = Done (out, s)
    ∧ (s = Quartic.NoCounterexamples N_MAX
       ↔ ∀ n, 2 ≤ n ≤ N_MAX → (isprime n = true ↔ Reference.L4 n = 0))
    ∧ (∀ rows, s = Quartic.CounterexamplesFound rows →
         ∀ n p v, (n, p, v) ∈ rows
                  ↔ 2 ≤ n ≤ N_MAX ∧ p = isprime n ∧ v = Reference.L4 n
                    ∧ ¬ (isprime n = true ↔ Reference.L4 n = 0)).
Proof.
  intros Hfuel. unfold Quartic.main_entry.
  rewrite quartic_run by done. cbn [mbind outcome_bind fst snd].
  set (bad := filter (λ n, Quartic.ok (isprime n) (Reference.L4 n) = false)
                (range 2 (N_MAX + 1))).
  assert (∀ n, n ∈ bad ↔ 2 ≤ n ≤ N_MAX ∧ ¬ (isprime n = true ↔ Reference.L4 n = 0))
    as Hbad.
  { intros n. unfold bad. rewrite list_elem_of_filter, elem_of_range, ok_false_iff.
    split; intros [? ?]; split; (done || lia). }
  eexists _, _. split; [done|]. split.
  - destruct bad as [|b bad'] eqn:Hb.
    + split; [|done]. intros _ n Hn.
      destruct (decide (isprime n = true ↔ Reference.L4 n = 0)) as [|Hno]; [done|].
      exfalso. apply (not_elem_of_nil n), Hbad. done.
    + split; [done|]. intros Hall. exfalso.
      destruct (proj1 (Hbad b) ltac:(left)) as [Hn Hno]. by apply Hno, Hall.
  - intros rows Hrows n p v.
    assert (rows = (λ n, (n, isprime n, Reference.L4 n)) <$> bad) as ->.
    { destruct bad; [done|]. by injection Hrows as <-. }
    rewrite list_elem_of_fmap. split.
    + intros (n' & [= -> -> ->] & Hn'%Hbad). tauto.
    + intros (Hn & -> & -> & Hno). exists n. split; [done|]. by apply Hbad.
Qed.

Lemma quartic_summary_meaning_witness :
  (Z.to_nat 10 < 11)%nat
  ∧ ∃ out s,
      Quartic.main_entry Reference.trial_prime 11 10 = Done (out, s)
      ∧ (s = Quartic.NoCounterexamples 10
         ↔ ∀ n, 2 ≤ n ≤ 10 → (Reference.trial_prime n = true ↔ Reference.L4 n = 0))
      ∧ (∀ rows, s = Quartic.CounterexamplesFound rows →
           ∀ n p v, (n, p, v) ∈ rows
                    ↔ 2 ≤ n ≤ 10 ∧ p = Reference.trial_prime n ∧ v = Reference.L4 n
                      ∧ ¬ (Reference.trial_prime n = true ↔ Reference.L4 n = 0)).
Proof.
  assert (Z.to_nat 10 < 11)%nat as Hfuel by (vm_compute; lia).
  split; [done|]. exact (quartic_summary_meaning Reference.trial_prime 11 10 Hfuel).
Defined.

(** X10.  What the cubic script's verdict means.  The script prints
    "VERIFIED" exactly when, for every [n] in [2, N_MAX], the oracle says
    prime if and only if the cubic combination of the reference statistics of
    [n] is 0; otherwise it prints "FAILED" with the positive number of
    disagreements and exactly the [n] of the range where the two disagree. *)
Theorem cubic_summary_meaning (isprime : Z → bool) (fuel : nat) (N_MAX : Z) :
  (Z.to_nat N_MAX < fuel)%nat →
  ∃ out s,
    Binomial.script isprime fuel N_MAX = Done (out, s)
    ∧ (s = Binomial.Verified N_MAX
       ↔ ∀ n, 2 ≤ n ≤ N_MAX → (isprime n = true ↔ Reference.L3 n = 0))
    ∧ (∀ count numbers, s = Binomial.Failed count numbers →
         count = length numbers ∧ (0 < count)%nat
         ∧ ∀ n, n ∈ numbers
                ↔ 2 ≤ n ≤ N_MAX ∧ ¬ (isprime n = true ↔ Reference.L3 n = 0)).
Proof.
  intros Hfuel. unfold Binomial.script.
  rewrite binomial_run by done. cbn [mbind outcome_bind fst snd].
  set (bad := filter (λ n, Binomial.passed (isprime n) (Reference.L3 n) = false)
                (range 2 (N_MAX + 1))).
  assert (∀ n, n ∈ bad ↔ 2 ≤ n ≤ N_MAX ∧ ¬ (isprime n = true ↔ Reference.L3 n = 0))
    as Hbad.
  { intros n. unfold bad. rewrite list_elem_of_filter, elem_of_range, passed_false_iff.
    split; intros [? ?]; split; (done || lia). }
  eexists _, _. split; [done|]. unfold Binomial.summarize. split.
  - destruct bad as [|b bad'] eqn:Hb.
    + split; [|done]. intros _ n Hn.
      destruct (decide (isprime n = true ↔ Reference.L3 n = 0)) as [|Hno]; [done|].
      exfalso. apply (not_elem_of_nil n), Hbad. done.
    + split; [done|]. intros Hall. exfalso.
      destruct (proj1 (Hbad b) ltac:(left)) as [Hn Hno]. by apply Hno, Hall.
  - intros count numbers Hs. case_decide as Hlen; [done|].
    injection Hs as <- <-. split; [done|]. split; [lia|done].
Qed.

Lemma cubic_summary_meaning_witness :
  (Z.to_nat 10 < 11)%nat
  ∧ ∃ out s,
      Binomial.script Reference.trial_prime 11 10 = Done (out, s)
      ∧ (s = Binomial.Verified 10
         ↔ ∀ n, 2 ≤ n ≤ 10 → (Reference.trial_prime n = true ↔ Reference.L3 n = 0))
      ∧ (∀ count numbers, s = Binomial.Failed count numbers →
           count = length numbers ∧ (0 < count)%nat
           ∧ ∀ n, n ∈ numbers
                  ↔ 2 ≤ n ≤ 10
                    ∧ ¬ (Reference.trial_prime n = true ↔ Reference.L3 n = 0)).
Proof.
  assert (Z.to_nat 10 < 11)%nat as Hfuel by (vm_compute; lia).
  split; [done|]. exact (cubic_summary_meaning Reference.trial_prime 11 10 Hfuel).
Defined.

(** X11.  [verbose] only switches the printing: with [verbose=False]
    [verify_range] prints no line and returns the same [failures] as with
    [verbose=True], where it prints one line per [n] of [2..N_max], in
    order. *)
Theorem verbose_only_prints (isprime : Z → bool) (fuel : nat) (N_max : Z) :
  (Z.to_nat N_max < fuel)%nat →
  ∃ out failures,
    Quartic.verify_range isprime fuel N_max true = Done (out, failures)
    ∧ Quartic.verify_range isprime fuel N_max false = Done ([], failures)
    ∧ Quartic.line_n <$> out = range 2 (N_max + 1).
Proof.
  intros Hfuel. rewrite !quartic_run by done.
  eexists _, _. split; [done|]. split; [done|].
  rewrite <-list_fmap_compose. generalize (range 2 (N_max + 1)). intros l.
  induction l as [|n l IH]; [done|]. rewrite fmap_cons, IH. done.
Qed.

Lemma verbose_only_prints_witness :
  (Z.to_nat 10 < 11)%nat
  ∧ ∃ out failures,
      Quartic.verify_range Reference.trial_prime 11 10 true = Done (out, failures)
      ∧ Quartic.verify_range Reference.trial_prime 11 10 false = Done ([], failures)
      ∧ Quartic.line_n <$> out = range 2 (10 + 1).
Proof.
  assert (Z.to_nat 10 < 11)%nat as Hfuel by (vm_compute; lia).
  split; [done|]. exact (verbose_only_prints Reference.trial_prime 11 10 Hfuel).
Defined.



(** X13.  The drivers consult the primality oracle only on [2..N_max]: two
    oracles that agree there give the same lines and the same failures (and
    the same error, if the run fails), for both drivers. *)
Theorem oracle_used_on_range_only (p1 p2 : Z → bool) (fuel : nat) (N_max : Z)
    (verbose : bool) :
  (∀ n, 2 ≤ n ≤ N_max → p1 n = p2 n) →
  Quartic.verify_range p1 fuel N_max verbose = Quartic.verify_range p2 fuel N_max verbose
  ∧ Binomial.main p1 fuel N_max = Binomial.main p2 fuel N_max.
Proof.
  intros Hagree. split.
  - unfold Quartic.verify_range.
    destruct (Quartic.compute_M_up_to_4 fuel N_max) as [Ms| | |]; try done.
    cbn [mbind outcome_bind]. apply quartic_loop_ext.
    intros n Hn%elem_of_range. apply Hagree. lia.
  - unfold Binomial.main.
    destruct (Binomial.compute_M_up_to_3 fuel N_max) as [Ms| | |]; try done.
    cbn [mbind outcome_bind]. apply binomial_loop_ext.
    intros n Hn%elem_of_range. apply Hagree. lia.
Qed.

Lemma oracle_used_on_range_only_witness :
  (∀ n, 2 ≤ n ≤ 10 →
     Reference.trial_prime n = (bool_decide (n ≤ 10) && Reference.trial_prime n))
  ∧ Quartic.verify_range Reference.trial_prime 11 10 true
    = Quartic.verify_range (λ n, bool_decide (n ≤ 10) && Reference.trial_prime n) 11 10 true
  ∧ Binomial.main Reference.trial_prime 11 10
    = Binomial.main (λ n, bool_decide (n ≤ 10) && Reference.trial_prime n) 11 10.
Proof.
  assert (∀ n, 2 ≤ n ≤ 10 →
            Reference.trial_prime n = (bool_decide (n ≤ 10) && Reference.trial_prime n))
    as Hagree.
  { intros n Hn. by rewrite bool_decide_eq_true_2 by lia. }
  split; [done|].
  exact (oracle_used_on_range_only Reference.trial_prime
           (λ n, bool_decide (n ≤ 10) && Reference.trial_prime n) 11 10 true Hagree).
Defined.

(** X14.  Raising the bound only extends the report: for [N ≤ N'], the
    failures returned for the range [2..N] are those returned for [2..N']
    that lie at or below [N], for both drivers. *)
Theorem failures_extend (isprime : Z → bool) (fuel : nat) (N N' : Z) (verbose : bool) :
  N ≤ N' → (Z.to_nat N' < fuel)%nat →
  (∃ out fs out' fs',
     Quartic.verify_range isprime fuel N verbose = Done (out, fs)
     ∧ Quartic.verify_range isprime fuel N' verbose = Done (out', fs')
     ∧ fs = filter (λ f, f.1.1 ≤ N) fs')
  ∧ (∃ out fs out' fs',
     Binomial.main isprime fuel N = Done (out, fs)
     ∧ Binomial.main isprime fuel N' = Done (out', fs')
     ∧ fs = filter (λ n, n ≤ N) fs').
Proof.
  intros HN Hfuel. split.
  - rewrite !quartic_run by lia. eexists _, _, _, _.
    split; [done|]. split; [done|].
    by rewrite filter_failures_prefix, filter_range_prefix.
  - rewrite !binomial_run by lia. eexists _, _, _, _.
    split; [done|]. split; [done|].
    by rewrite filter_range_prefix.
Qed.

Lemma failures_extend_witness :
  (6 ≤ 10 ∧ (Z.to_nat 10 < 11)%nat)
  ∧ (∃ out fs out' fs',
       Quartic.verify_range Reference.trial_prime 11 6 true = Done (out, fs)
       ∧ Quartic.verify_range Reference.trial_prime 11 10 true = Done (out', fs')
       ∧ fs = filter (λ f, f.1.1 ≤ 6) fs')
  ∧ (∃ out fs out' fs',
       Binomial.main Reference.trial_prime 11 6 = Done (out, fs)
       ∧ Binomial.main Reference.trial_prime 11 10 = Done (out', fs')
       ∧ fs = filter (λ n, n ≤ 6) fs').
Proof.
  assert (6 ≤ 10) as HN by lia.
  assert (Z.to_nat 10 < 11)%nat as Hfuel by (vm_compute; lia).
  split; [done|].
  exact (failures_extend Reference.trial_prime 11 6 10 true HN Hfuel).
Defined.

(** * Which statistics vanish *)

Section threshold.
Import Reference.

(** [d] distinct parts, each at least [lo], weigh at least
  [lo + (lo+1) + ... + (lo+d-1)]. *)
Lemma distinct_sum_bound : ∀ (l : list nat) (lo : nat),
StronglySorted le l → Forall (λ x, lo ≤ x)%nat l →
(distinct_sizes l * (2 * lo + distinct_sizes l) ≤ 2 * sum_list l + distinct_sizes l)%nat.
Proof.
induction l as [|x t IH]; intros lo Hs Hlo; [simpl; lia|].
apply StronglySorted_inv in Hs as [Hs Hx].
apply Forall_cons in Hlo as [Hlox Hlo].
unfold distinct_sizes in *. cbn [remove_dups sum_list sum_list_with].
destruct (decide_rel elem_of x t) as [Hin|Hnin].
- specialize (IH x Hs Hx). nia.
- assert (Forall (λ y, S x ≤ y)%nat t) as Hgt.
  { rewrite Forall_forall in Hx. apply Forall_forall. intros y Hy.
    specialize (Hx y Hy). simpl in Hx.
    assert (y ≠ x) by (intros ->; done). lia. }
  specialize (IH (S x) Hs Hgt). cbn [length]. change (id x) with x.
  remember (length (remove_dups t)) as d eqn:Hd.
  remember (sum_list t) as s eqn:Hsum.
  clear - IH Hlox.
  assert (S d * lo ≤ S d * x)%nat by (apply Nat.mul_le_mono_l; lia). nia.
Qed.

Lemma sumZ_elem_le {A} (f : A → Z) (l : list A) (x : A) :
(∀ y, y ∈ l → 0 ≤ f y) → x ∈ l → f x ≤ sumZ (f <$> l).
Proof.
unfold sumZ. induction l as [|y l IH]; intros Hnn Hx; [by apply elem_of_nil in Hx|].
rewrite fmap_cons. cbn [foldr].
assert (0 ≤ foldr Z.add 0 (f <$> l)) as Hrest.
{ apply (sumZ_nonneg (f <$> l)), Forall_fmap, Forall_forall.
  intros z Hz. apply Hnn. by right. }
pose proof (Hnn y ltac:(left)).
apply elem_of_cons in Hx as [->|Hx]; [lia|].
assert (f x ≤ foldr Z.add 0 (f <$> l)); [|lia].
apply IH; [|done]. intros z Hz. apply Hnn. by right.
Qed.

Lemma remove_dups_NoDup (l : list nat) : NoDup l → remove_dups l = l.
Proof.
induction 1 as [|x l Hx Hnd IH]; [done|].
cbn [remove_dups]. destruct (decide_rel elem_of x l); [done|]. by rewrite IH.
Qed.

Lemma seq_sorted : ∀ (len s : nat), StronglySorted le (seq s len).
Proof.
induction len as [|len IH]; intros s; simpl; constructor.
- apply IH.
- apply Forall_forall. intros y Hy%elem_of_seq. lia.
Qed.

(** The staircase [1, 2, ..., k-1] followed by a last part [r ≥ k]. *)
Lemma staircase_partition (k r : nat) :
(k ≤ r)%nat → (1 ≤ k)%nat →
is_partition (sum_list (seq 1 (k - 1)) + r) (seq 1 (k - 1) ++ [r])
∧ distinct_sizes (seq 1 (k - 1) ++ [r]) = k.
Proof.
intros Hr Hk. split.
- repeat split.
  + apply StronglySorted_app_2.
    * intros x y Hx%elem_of_seq Hy%list_elem_of_singleton. lia.
    * apply seq_sorted.
    * repeat constructor.
  + apply Forall_app. split.
    * apply Forall_forall. intros y Hy%elem_of_seq. lia.
    * repeat constructor. lia.
  + rewrite sum_list_append. simpl. lia.
- unfold distinct_sizes. rewrite remove_dups_NoDup.
  + rewrite length_app, length_seq. simpl. lia.
  + apply NoDup_app. split; [apply NoDup_seq|]. split; [|apply NoDup_singleton].
    intros x Hx%elem_of_seq Hy%list_elem_of_singleton. lia.
Qed.

Lemma sum_staircase (j : nat) : (2 * sum_list (seq 1 j) = j * (j + 1))%nat.
Proof.
induction j as [|j IH]; [done|].
rewrite seq_S, sum_list_append. simpl. lia.
Qed.

(** [M k n] is positive exactly from the triangular number [k(k+1)/2] on. *)
Lemma M_positive_iff (k n : nat) :
(1 ≤ k)%nat → (1 ≤ M k n ↔ (k * (k + 1) ≤ 2 * n)%nat).
Proof.
intros Hk. split.
- intros Hpos. destruct (decide (k * (k + 1) ≤ 2 * n)%nat) as [|Hsmall]; [done|].
  exfalso. rewrite M_vanish in Hpos; [lia|].
  intros l (Hs & Hall & Hsum) Hd.
  pose proof (distinct_sum_bound l 1 Hs Hall). nia.
- intros Hn.
  pose proof (sum_staircase (k - 1)) as Hst.
  set (r := (n - sum_list (seq 1 (k - 1)))%nat).
  assert (k ≤ r)%nat as Hr by (unfold r; nia).
  destruct (staircase_partition k r Hr Hk) as [Hpart Hdist].
  replace (sum_list (seq 1 (k - 1)) + r)%nat with n in Hpart by (unfold r; nia).
  apply partitions_spec in Hpart.
  rewrite M_completions. unfold completions. fold (partitions n).
  set (f := λ l : list nat,
         if decide (0 + distinct_sizes l = k)%nat then weight l else 0).
  assert (∀ y, y ∈ partitions n → 0 ≤ f y) as Hnn.
  { intros y _. unfold f. pose proof (weight_ge_1 y). case_decide; lia. }
  pose proof (sumZ_elem_le f _ _ Hnn Hpart) as Hle.
  assert (1 ≤ f (seq 1 (k - 1) ++ [r])); [|lia].
  unfold f. rewrite decide_True by (by rewrite Hdist). apply weight_ge_1.
Qed.
End threshold.

(** X15.  Which entries of the table are zero: for [n] in [0, N_MAX] and [k]
    in [1, K], the computed [M_k(n)] is 0 exactly when [n] is below the
    triangular number [k(k+1)/2], and at least 1 otherwise.  Both scripts. *)
Theorem stats_zero_threshold (fuel : nat) (N_MAX n k : Z) :
  0 ≤ n ≤ N_MAX → (Z.to_nat N_MAX < fuel)%nat →
  (1 ≤ k ≤ 3 →
     ∃ Ms row v, Binomial.compute_M_up_to_3 fuel N_MAX = Done Ms
                 ∧ Ms !! n = Some row ∧ row !! k = Some v
                 ∧ (v = 0 ↔ 2 * n < k * (k + 1)) ∧ (1 ≤ v ↔ k * (k + 1) ≤ 2 * n))
  ∧ (1 ≤ k ≤ 4 →
     ∃ Ms row v, Quartic.compute_M_up_to_4 fuel N_MAX = Done Ms
                 ∧ Ms !! n = Some row ∧ row !! k = Some v
                 ∧ (v = 0 ↔ 2 * n < k * (k + 1)) ∧ (1 ≤ v ↔ k * (k + 1) ≤ 2 * n)).
Proof.
  intros Hn Hfuel.
  assert (1 ≤ k →
          (Reference.M (Z.to_nat k) (Z.to_nat n) = 0 ↔ 2 * n < k * (k + 1))
          ∧ (1 ≤ Reference.M (Z.to_nat k) (Z.to_nat n) ↔ k * (k + 1) ≤ 2 * n)) as HM.
  { intros Hk.
    pose proof (M_positive_iff (Z.to_nat k) (Z.to_nat n) ltac:(lia)) as Hpos.
    assert (0 ≤ Reference.M (Z.to_nat k) (Z.to_nat n)) as Hnn.
    { rewrite M_completions. apply completions_nonneg. }
    assert ((Z.to_nat k * (Z.to_nat k + 1) ≤ 2 * Z.to_nat n)%nat
            ↔ k * (k + 1) ≤ 2 * n) as Hconv.
    { rewrite <-(Z2Nat.id k) at 3 4 by lia. rewrite <-(Z2Nat.id n) at 2 by lia. lia. }
    rewrite Hconv in Hpos. split; [|done]. split; intros; lia. }
  split; intros Hk.
  - destruct (binomial_table fuel N_MAX n k) as (Ms & row & V & ? & ? & _ & Hrow & HV);
      [done..|].
    exists Ms, row, (Reference.M (Z.to_nat k) (Z.to_nat n)).
    rewrite Hrow, HV. repeat split; try done; apply HM; lia.
  - destruct (quartic_table fuel N_MAX n k) as (Ms & row & V & ? & ? & _ & Hrow & HV);
      [done..|].
    exists Ms, row, (Reference.M (Z.to_nat k) (Z.to_nat n)).
    rewrite Hrow, HV. repeat split; try done; apply HM; lia.
Qed.

Lemma stats_zero_threshold_witness :
  (0 ≤ 9 ≤ 10 ∧ (Z.to_nat 10 < 11)%nat)
  ∧ (∃ Ms row v, Binomial.compute_M_up_to_3 11 10 = Done Ms
                 ∧ Ms !! 9 = Some row ∧ row !! 3 = Some v
                 ∧ (v = 0 ↔ 2 * 9 < 3 * (3 + 1)) ∧ (1 ≤ v ↔ 3 * (3 + 1) ≤ 2 * 9))
  ∧ (∃ Ms row v, Quartic.compute_M_up_to_4 11 10 = Done Ms
                 ∧ Ms !! 9 = Some row ∧ row !! 4 = Some v
                 ∧ (v = 0 ↔ 2 * 9 < 4 * (4 + 1)) ∧ (1 ≤ v ↔ 4 * (4 + 1) ≤ 2 * 9)).
Proof.
  assert (0 ≤ 9 ≤ 10) as Hn by lia.
  assert (Z.to_nat 10 < 11)%nat as Hfuel by (vm_compute; lia).
  destruct (stats_zero_threshold 11 10 9 3 Hn Hfuel) as [H3 _].
  destruct (stats_zero_threshold 11 10 9 4 Hn Hfuel) as [_ H4].
  split; [done|]. split; [apply H3; lia|apply H4; lia].
Defined.

(** * The take-or-skip recurrence *)

Section take_or_skip.
Import Reference.

(** Either the smallest allowed part [lo] is used, with some multiplicity, or
  it is not used at all. *)
Lemma completions_take_or_skip (d lo rem k : nat) :
(1 ≤ lo)%nat → (0 < rem)%nat →
completions d lo rem k
= sumZ ((λ m, Z.of_nat m * completions (S d) (S lo) (rem - m * lo) k)
          <$> seq 1 (Nat.div rem lo))
  + completions d (S lo) rem k.
Proof.
intros Hlo Hrem.
rewrite (completions_step d lo) by done.
rewrite (completions_step d (S lo)) by lia.
destruct (decide (lo ≤ rem)%nat) as [Hle|Hgt].
- replace (S rem - lo)%nat with (S (S rem - S lo)) by lia.
  cbn [seq]. rewrite fmap_cons. unfold sumZ at 1. cbn [foldr]. done.
- replace (S rem - lo)%nat with 0%nat by lia.
  replace (S rem - S lo)%nat with 0%nat by lia.
  rewrite Nat.div_small by lia. done.
Qed.

Variable Kn : nat.
Variable scale : Z → Z → Z.
Hypothesis Hscale : ∀ m c, 1 ≤ m → scale m c = m * c.
Local Abbreviation K := (Z.of_nat Kn).

Lemma rec_take_or_skip_gen (rem lo d k : Z) :
1 ≤ rem → 1 ≤ lo → 0 ≤ d → 1 ≤ k ≤ K →
∃ V Vskip child,
  Engine.rec K scale (S (Z.to_nat rem)) rem lo d = Done V
  ∧ Engine.rec K scale (S (Z.to_nat rem)) rem (lo + 1) d = Done Vskip
  ∧ (∀ m, 1 ≤ m ≤ rem `div` lo →
       Engine.rec K scale (S (Z.to_nat rem)) (rem - m * lo) (lo + 1) (d + 1)
       = Done (child m))
  ∧ V !!! Z.to_nat k
    = sumZ ((λ m, m * child m !!! Z.to_nat k) <$> range 1 (rem `div` lo + 1))
      + Vskip !!! Z.to_nat k.
Proof.
intros Hrem Hlo Hd Hk.
set (rem' := Z.to_nat rem). set (lo' := Z.to_nat lo). set (d' := Z.to_nat d).
assert (rem = Z.of_nat rem') as Hr by (unfold rem'; lia).
assert (lo = Z.of_nat lo') as Hl by (unfold lo'; lia).
assert (d = Z.of_nat d') as Hdd by (unfold d'; lia).
exists (stat_vector Kn d' lo' rem'), (stat_vector Kn d' (S lo') rem'),
  (λ m, stat_vector Kn (S d') (S lo') (rem' - Z.to_nat m * lo')).
split; [|split; [|split]].
- rewrite Hr, Hl, Hdd at 1. apply (rec_spec Kn scale Hscale); lia.
- replace (lo + 1) with (Z.of_nat (S lo')) by lia. rewrite Hr, Hdd at 1.
  apply (rec_spec Kn scale Hscale); lia.
- intros m Hm.
  assert (m * lo ≤ rem) as Hmlo.
  { pose proof (Z.mul_div_le rem lo ltac:(lia)). nia. }
  replace (rem - m * lo) with (Z.of_nat (rem' - Z.to_nat m * lo')) by nia.
  replace (lo + 1) with (Z.of_nat (S lo')) by lia.
  replace (d + 1) with (Z.of_nat (S d')) by lia.
  apply (rec_spec Kn scale Hscale); lia.
- rewrite !lookup_stat_vector by lia.
  rewrite (completions_take_or_skip d' lo' rem') by lia. f_equal.
  replace (rem `div` lo + 1) with (Z.of_nat (S (Nat.div rem' lo')))
    by (rewrite Hr, Hl at 1; rewrite <-Nat2Z.inj_div; lia).
  pose proof (range_of_nat 1 (S (Nat.div rem' lo'))) as Hrange.
  change (Z.of_nat 1) with 1 in Hrange. rewrite Hrange. clear Hrange.
  replace (S (Nat.div rem' lo') - 1)%nat with (Nat.div rem' lo') by lia.
  rewrite <-list_fmap_compose. apply sumZ_ext. intros m Hm%elem_of_seq. simpl.
  rewrite Nat2Z.id. rewrite lookup_stat_vector by lia. done.
Qed.
End take_or_skip.

(** X16.  The take-or-skip recurrence of [rec]: from a state with
    [remaining ≥ 1], [min_part ≥ 1] and [distinct_used ≥ 0], every entry
    [k] in [1, K] of the result is the sum, over the multiplicities
    [m = 1..remaining // min_part], of [m] times the entry of
    [rec(remaining - m*min_part, min_part + 1, distinct_used + 1)], plus the
    entry of [rec(remaining, min_part + 1, distinct_used)], the
    state that skips the part [min_part].  Both scripts. *)
Theorem rec_take_or_skip (remaining min_part distinct_used k : Z) :
  1 ≤ remaining → 1 ≤ min_part → 0 ≤ distinct_used →
  (1 ≤ k ≤ 3 →
     ∃ V Vskip child,
       Binomial.rec (S (Z.to_nat remaining)) remaining min_part distinct_used = Done V
       ∧ Binomial.rec (S (Z.to_nat remaining)) remaining (min_part + 1) distinct_used
         = Done Vskip
       ∧ (∀ m, 1 ≤ m ≤ remaining `div` min_part →
            Binomial.rec (S (Z.to_nat remaining)) (remaining - m * min_part)
              (min_part + 1) (distinct_used + 1) = Done (child m))
       ∧ V !!! Z.to_nat k
         = Reference.sumZ ((λ m, m * child m !!! Z.to_nat k)
                             <$> range 1 (remaining `div` min_part + 1))
           + Vskip !!! Z.to_nat k)
  ∧ (1 ≤ k ≤ 4 →
     ∃ V Vskip child,
       Quartic.rec (S (Z.to_nat remaining)) remaining min_part distinct_used = Done V
       ∧ Quartic.rec (S (Z.to_nat remaining)) remaining (min_part + 1) distinct_used
         = Done Vskip
       ∧ (∀ m, 1 ≤ m ≤ remaining `div` min_part →
            Quartic.rec (S (Z.to_nat remaining)) (remaining - m * min_part)
              (min_part + 1) (distinct_used + 1) = Done (child m))
       ∧ V !!! Z.to_nat k
         = Reference.sumZ ((λ m, m * child m !!! Z.to_nat k)
                             <$> range 1 (remaining `div` min_part + 1))
           + Vskip !!! Z.to_nat k).
Proof.
  intros Hrem Hlo Hd. split; intros Hk.
  - by apply (rec_take_or_skip_gen 3 Binomial.scale binomial_scale).
  - by apply (rec_take_or_skip_gen 4 Quartic.scale quartic_scale).
Qed.

Lemma rec_take_or_skip_witness :
  (1 ≤ 7 ∧ 1 ≤ 2 ∧ 0 ≤ 1)
  ∧ (∃ V Vskip child,
       Binomial.rec (S (Z.to_nat 7)) 7 2 1 = Done V
       ∧ Binomial.rec (S (Z.to_nat 7)) 7 (2 + 1) 1 = Done Vskip
       ∧ (∀ m, 1 ≤ m ≤ 7 `div` 2 →
            Binomial.rec (S (Z.to_nat 7)) (7 - m * 2) (2 + 1) (1 + 1) = Done (child m))
       ∧ V !!! Z.to_nat 2
         = Reference.sumZ ((λ m, m * child m !!! Z.to_nat 2) <$> range 1 (7 `div` 2 + 1))
           + Vskip !!! Z.to_nat 2)
  ∧ (∃ V Vskip child,
       Quartic.rec (S (Z.to_nat 7)) 7 2 1 = Done V
       ∧ Quartic.rec (S (Z.to_nat 7)) 7 (2 + 1) 1 = Done Vskip
       ∧ (∀ m, 1 ≤ m ≤ 7 `div` 2 →
            Quartic.rec (S (Z.to_nat 7)) (7 - m * 2) (2 + 1) (1 + 1) = Done (child m))
       ∧ V !!! Z.to_nat 2
         = Reference.sumZ ((λ m, m * child m !!! Z.to_nat 2) <$> range 1 (7 `div` 2 + 1))
           + Vskip !!! Z.to_nat 2).
Proof.
  assert (1 ≤ 7) as Hrem by lia.
  assert (1 ≤ 2) as Hlo by lia.
  assert (0 ≤ 1) as Hd by lia.
  destruct (rec_take_or_skip 7 2 1 2 Hrem Hlo Hd) as [H3 H4].
  split; [done|]. split; [apply H3; lia|apply H4; lia].
Defined.

(** * Concrete runs *)

(** The hand-computable value of the specification: the partitions of 4 with
    one distinct part size are 4, 2+2 and 1+1+1+1, with multiplicities 1, 2
    and 4. *)
Example rec_at_4 :
  Binomial.rec 5 4 1 0 = Done [0; 7; 3; 0] ∧ Quartic.rec 5 4 1 0 = Done [0; 7; 3; 0; 0].
Proof. split; reflexivity. Qed.

Example rec_at_10 : Quartic.rec 11 10 1 0 = Done [0; 18; 99; 42; 1].
Proof. by vm_compute. Qed.

(** A [min_part] of 0 makes the first iteration divide by zero. *)
Example rec_min_part_0 : Quartic.rec 3 2 0 0 = ZeroDivisionError.
Proof. reflexivity. Qed.

Example partitions_5 :
  Reference.partitions 5
  = [[1; 1; 1; 1; 1]; [1; 1; 1; 2]; [1; 1; 3]; [1; 2; 2]; [1; 4]; [2; 3]; [5]]%nat.
Proof. reflexivity. Qed.

(** The cubic pipeline on 2..10, with trial division as the oracle: no
    failure; the value is 0 at the prime 7 and 225 at the composite 8. *)
Example cubic_run_10 :
  Binomial.main Reference.trial_prime 11 10
  = Done ([Binomial.Line 2 true 0 true; Binomial.Line 3 true 0 true;
           Binomial.Line 4 false 15 true; Binomial.Line 5 true 0 true;
           Binomial.Line 6 false 85 true; Binomial.Line 7 true 0 true;
           Binomial.Line 8 false 225 true; Binomial.Line 9 false 40 true;
           Binomial.Line 10 false 609 true], []).
Proof. by vm_compute. Qed.

(** The quartic pipeline on 2..16: no failure. *)
Example quartic_run_16 :
  Quartic.verify_range Reference.trial_prime 17 16 false = Done ([], []).
Proof. by vm_compute. Qed.
